(** * QuizController: navigation state machine and completion trigger

    Shallow embedding of [src/components/quiz/QuizController.tsx].

    The component is a React function component: its state lives in
    [useState] cells, its handlers read the committed state and queue
    updates, timed transitions are [setTimeout] callbacks, and one
    [useEffect] watches for completion.  The embedding keeps that shape:

    - [State] holds the [useState] cells;
    - [World] adds the pending [setTimeout] callbacks and the log of
      calls that leave the component (webhook, [postMessage],
      [window.location]);
    - every handler is a function [World -> World] that runs against the
      committed state, exactly one event at a time; a setter call acts
      on the state the event hands to the next render, and no handler
      reads a cell after it has written it;
    - [completionEffect] is the [useEffect] body, re-checked after every
      event ([step]).

    Wall-clock time is not modelled: a pending callback carries its delay
    as data and [Fire n] lets any pending callback run. *)

From Stdlib Require Import ZArith Lia Bool Ascii String SpecFloat.
From stdpp Require Import gmap strings list fin_maps.

Local Open Scope Z_scope.

(** ** Data model *)

(** Modelled from the spec: [QuizAnswer] comes from [@/types/quiz], which
    defines the answer of one question as its id and the selected value. *)
Record QuizAnswer := mkAnswer {
  questionId : string;
  value : string
}.

(** Modelled from the spec: a [QuizConfig] question carries a stable id,
    a prompt text and options with a value and a display text; the
    controller itself only reads [id]. *)
Record QuizOption := mkOption {
  optionValue : string;
  optionText : string
}.

Record QuizQuestion := mkQuestion {
  id : string;
  title : string;
  options : list QuizOption
}.

(** Modelled from the spec: the configuration is the ordered question
    list and an optional webhook endpoint ([None] is a missing
    [webhookUrl]). *)
Record QuizConfig := mkConfig {
  questions : list QuizQuestion;
  webhookUrl : option string
}.

Record QuizParticipant := mkParticipant {
  name : string;
  email : string;
  answers : list QuizAnswer
}.

(** ['a' | 'b' | 'c'] *)
Inductive InterstitialType := IA | IB | IC.

(** [type QuizStage]; the three ["interstitial-x"] literals are built in
    the source by the template [`interstitial-${interstitialType}`]. *)
Inductive QuizStage :=
| StIntro
| StQuestions
| StInterstitialOf (k : InterstitialType)
| StInterstitial
| StRedirecting.

#[global] Instance InterstitialType_eq_dec : EqDecision InterstitialType.
Proof. solve_decision. Defined.

#[global] Instance QuizStage_eq_dec : EqDecision QuizStage.
Proof. solve_decision. Defined.

(** The [useState] cells of the component.  [interstitialData] is never
    written by the component and stays [null]; it is left out. *)
Record State := mkState {
  stage : QuizStage;
  currentQuestionId : option string;
  questionHistory : list string;
  isTransitioning : bool;
  isInterstitialTransitioning : bool;
  currentInterstitial : option InterstitialType;
  participant : QuizParticipant;
  hasSentCompletionData : bool
}.

(** What a [setTimeout] callback closes over. *)
Inductive Callback :=
| ShowInterstitialCb (interstitialType : InterstitialType)
| NextQuestionCb (nextQuestionId : string)
| InterstitialContinueCb (nextQuestionId : option string)
| InterstitialBackCb (previousQuestionId : option string)
| PreviousCb (previousQuestionId : option string) (newHistory : list string).

Record Timer := mkTimer {
  delay : nat;
  callback : Callback
}.

(** The webhook payload ([payloadOverride]); [score] is the object
    before [JSON.stringify], as its own properties. *)
Record Payload := mkPayload {
  payloadName : string;
  payloadEmail : string;
  score : gmap string string;
  quizzId : string
}.

(** Calls that leave the component. *)
Inductive External :=
| SendEmailGateWebhook (url : string) (to : string) (payload : Payload)
| PostMessage (url : string)
| SetLocationHref (url : string).

(** The browsing context: whether [window.parent === window], and
    whether [window.parent.postMessage] throws. *)
Record Env := mkEnv {
  parentIsWindow : bool;
  postMessageThrows : bool
}.

Record World := mkWorld {
  state : State;
  timers : list Timer;
  externals : list External
}.

(** ** The imported helpers *)

(** [@/utils/quizUtils] is not part of the component; its three pure
    helpers are an interface the controller is parametrised over.
    [None] is [null]. *)
Class QuizUtils := {
  getNextQuestionId : string → list QuizAnswer → list QuizQuestion → option string;
  getQuestionText : string → QuizConfig → string;
  getOptionText : string → string → QuizConfig → string
}.

(** Built-ins of the JavaScript runtime that are kept abstract:
    [String.prototype.trim] and the floating-point expression
    [Math.round(((i + 1) / n) * 100)]. *)
Class JsBuiltins := {
  trim : string → string;
  roundPercent : Z → Z → Z
}.

(** ** JavaScript idioms *)

(** Truthiness of a [string | null] value: [null] and [""] are falsy. *)
Definition truthy (v : option string) : bool :=
  match v with
  | Some s => negb (String.eqb s "")
  | None => false
  end.

(** [Array.prototype.findIndex]: the first index whose element passes,
    [-1] when there is none. *)
Fixpoint findIndexFrom {A} (p : A → bool) (l : list A) (i : Z) : Z :=
  match l with
  | [] => -1
  | x :: r => if p x then i else findIndexFrom p r (i + 1)
  end.

Definition findIndex {A} (p : A → bool) (l : list A) : Z := findIndexFrom p l 0.

(** [obj[key] = value] on an object literal, for a string [value]: the
    key ["__proto__"] reaches the accessor of [Object.prototype], whose
    setter ignores a string, so no property is created; any other key
    becomes or overwrites an own property. *)
Definition assignProperty (key value : string) (obj : gmap string string)
  : gmap string string :=
  if String.eqb key "__proto__" then obj else <[key := value]> obj.

(** [newHistory.pop()] on a copy: drop the last element. *)
Definition pop {A} (l : list A) : list A := removelast l.

(** [l[l.length - 1]]; [None] stands for [undefined]. *)
Definition lastElement {A} (l : list A) : option A := last l.

(** ** State setters *)

Definition setStage (v : QuizStage) (s : State) : State :=
  mkState v (currentQuestionId s) (questionHistory s) (isTransitioning s)
    (isInterstitialTransitioning s) (currentInterstitial s) (participant s)
    (hasSentCompletionData s).

Definition setCurrentQuestionId (v : option string) (s : State) : State :=
  mkState (stage s) v (questionHistory s) (isTransitioning s)
    (isInterstitialTransitioning s) (currentInterstitial s) (participant s)
    (hasSentCompletionData s).

Definition setQuestionHistory (f : list string → list string) (s : State) : State :=
  mkState (stage s) (currentQuestionId s) (f (questionHistory s)) (isTransitioning s)
    (isInterstitialTransitioning s) (currentInterstitial s) (participant s)
    (hasSentCompletionData s).

Definition setIsTransitioning (v : bool) (s : State) : State :=
  mkState (stage s) (currentQuestionId s) (questionHistory s) v
    (isInterstitialTransitioning s) (currentInterstitial s) (participant s)
    (hasSentCompletionData s).

Definition setIsInterstitialTransitioning (v : bool) (s : State) : State :=
  mkState (stage s) (currentQuestionId s) (questionHistory s) (isTransitioning s)
    v (currentInterstitial s) (participant s) (hasSentCompletionData s).

Definition setCurrentInterstitial (v : option InterstitialType) (s : State) : State :=
  mkState (stage s) (currentQuestionId s) (questionHistory s) (isTransitioning s)
    (isInterstitialTransitioning s) v (participant s) (hasSentCompletionData s).

Definition setParticipant (v : QuizParticipant) (s : State) : State :=
  mkState (stage s) (currentQuestionId s) (questionHistory s) (isTransitioning s)
    (isInterstitialTransitioning s) (currentInterstitial s) v
    (hasSentCompletionData s).

Definition setHasSentCompletionData (v : bool) (s : State) : State :=
  mkState (stage s) (currentQuestionId s) (questionHistory s) (isTransitioning s)
    (isInterstitialTransitioning s) (currentInterstitial s) (participant s) v.

Definition withState (f : State → State) (w : World) : World :=
  mkWorld (f (state w)) (timers w) (externals w).

(** [setTimeout(cb, ms)]: the callback joins the pending ones. *)
Definition setTimeout (cb : Callback) (ms : nat) (w : World) : World :=
  mkWorld (state w) (timers w ++ [mkTimer ms cb]) (externals w).

Definition call (e : External) (w : World) : World :=
  mkWorld (state w) (timers w) (externals w ++ [e]).

(** ** The component *)

Section Controller.
Context `{QuizUtils} `{JsBuiltins}.
Variable config : QuizConfig.
Variable env : Env.

(** The initial values of the [useState] cells. *)
Definition initialState : State :=
  mkState StQuestions
    (match questions config with
     | q :: _ => Some (id q)
     | [] => None
     end)
    (match questions config with
     | q :: _ => [id q]
     | [] => []
     end)
    false false None
    (mkParticipant "" "" [])
    false.

Definition initialWorld : World := mkWorld initialState [] [].

(** [humanReadableMap]: one assignment per ledger entry, in order. *)
Definition humanReadableMap (l : list QuizAnswer) : gmap string string :=
  foldl
    (λ m ans,
       let qTitle := getQuestionText (questionId ans) config in
       let optionText := getOptionText (questionId ans) (value ans) config in
       assignProperty qTitle optionText m)
    ∅ l.

Definition payloadOverride (l : list QuizAnswer) : Payload :=
  mkPayload "Spanish Learner" "Spanishlearner@fallsale.com"
    (humanReadableMap l) "fall-sale".

Definition redirectUrl : string := "https://spanishvip.com/sale/new-year/adults/".

(** The [try]/[catch] around [window.parent.postMessage]. *)
Definition redirectCalls : list External :=
  PostMessage redirectUrl ::
  (if postMessageThrows env then [SetLocationHref redirectUrl]
   else if parentIsWindow env then [SetLocationHref redirectUrl]
   else []).

(** [config.webhookUrl && config.webhookUrl.trim() !== ""] *)
Definition webhookCalls (l : list QuizAnswer) : list External :=
  match webhookUrl config with
  | Some url =>
      if truthy (Some url) && negb (String.eqb (trim url) "")
      then [SendEmailGateWebhook url "Spanishlearner@fallsale.com" (payloadOverride l)]
      else []
  | None => []
  end.

(** The statements of the completion effect, in source order. *)
Inductive Action :=
| SetHasSentCompletionData (v : bool)
| SetStage (v : QuizStage)
| Call (e : External).

Definition completionActions (l : list QuizAnswer) : list Action :=
  [SetHasSentCompletionData true; SetStage StRedirecting]
    ++ map Call (webhookCalls l)
    ++ map Call redirectCalls.

Definition runAction (a : Action) (w : World) : World :=
  match a with
  | SetHasSentCompletionData v => withState (setHasSentCompletionData v) w
  | SetStage v => withState (setStage v) w
  | Call e => call e w
  end.

Definition runActions (l : list Action) (w : World) : World :=
  foldl (λ w a, runAction a w) w l.

(** The guard of the completion effect. *)
Definition completionCondition (s : State) : bool :=
  bool_decide (stage s = StQuestions)
  && bool_decide (currentQuestionId s = None)
  && (0 <? Z.of_nat (length (answers (participant s))))
  && negb (hasSentCompletionData s).

Definition completionEffect (w : World) : World :=
  if completionCondition (state w)
  then runActions (completionActions (answers (participant (state w)))) w
  else w.

(** [handleAnswer] on the ledger. *)
Definition recordAnswer (answer : QuizAnswer) (l : list QuizAnswer) : list QuizAnswer :=
  let existingIndex :=
    findIndex (λ a, String.eqb (questionId a) (questionId answer)) l in
  if existingIndex >? -1
  then <[Z.to_nat existingIndex := answer]> l
  else l ++ [answer].

Definition handleAnswer (answer : QuizAnswer) (w : World) : World :=
  let p := participant (state w) in
  withState
    (setParticipant (mkParticipant (name p) (email p) (recordAnswer answer (answers p))))
    w.

Definition shouldShowInterstitial (fromQuestionId toQuestionId : string)
  : option InterstitialType :=
  if String.eqb fromQuestionId "q1" && String.eqb toQuestionId "q2" then Some IA
  else if String.eqb fromQuestionId "q3" && String.eqb toQuestionId "q4" then Some IB
  else if String.eqb fromQuestionId "q5" && String.eqb toQuestionId "q6" then Some IC
  else None.

Definition handleNext (w : World) : World :=
  match currentQuestionId (state w) with
  | Some cur =>
      if negb (truthy (Some cur)) then w
      else
        let nextQuestionId :=
          getNextQuestionId cur (answers (participant (state w))) (questions config) in
        match nextQuestionId with
        | Some next =>
            if truthy (Some next) then
              match shouldShowInterstitial cur next with
              | Some interstitialType =>
                  setTimeout (ShowInterstitialCb interstitialType) 300
                    (withState (setIsTransitioning true) w)
              | None =>
                  setTimeout (NextQuestionCb next) 50
                    (withState (setIsTransitioning true) w)
              end
            else withState (setCurrentQuestionId None) w
        | None => withState (setCurrentQuestionId None) w
        end
  | None => w
  end.

Definition handleInterstitialContinue (w : World) : World :=
  match currentInterstitial (state w) with
  | None => w
  | Some k =>
      if isInterstitialTransitioning (state w) then w
      else
        let nextQuestionId :=
          match k with
          | IA => Some "q2"
          | IB => Some "q4"
          | IC => Some "q6"
          end in
        setTimeout (InterstitialContinueCb nextQuestionId) 500
          (withState (setIsInterstitialTransitioning true) w)
  end.

Definition handleInterstitialBack (w : World) : World :=
  match currentInterstitial (state w) with
  | None => w
  | Some k =>
      if isInterstitialTransitioning (state w) then w
      else
        let previousQuestionId :=
          match k with
          | IA => Some "q1"
          | IB => Some "q3"
          | IC => Some "q5"
          end in
        setTimeout (InterstitialBackCb previousQuestionId) 500
          (withState (setIsInterstitialTransitioning true) w)
  end.

Definition handlePrevious (w : World) : World :=
  if Z.of_nat (length (questionHistory (state w))) <=? 1 then w
  else
    match currentInterstitial (state w) with
    | Some _ => handleInterstitialBack w
    | None =>
        let newHistory := pop (questionHistory (state w)) in
        let previousQuestionId := lastElement newHistory in
        setTimeout (PreviousCb previousQuestionId newHistory) 50
          (withState (setIsTransitioning true) w)
    end.

(** The bodies of the [setTimeout] callbacks. *)
Definition runCallback (cb : Callback) (s : State) : State :=
  match cb with
  | ShowInterstitialCb interstitialType =>
      setIsTransitioning false
        (setCurrentInterstitial (Some interstitialType)
           (setStage (StInterstitialOf interstitialType) s))
  | NextQuestionCb nextQuestionId =>
      setIsTransitioning false
        (setQuestionHistory (λ prev, prev ++ [nextQuestionId])
           (setCurrentQuestionId (Some nextQuestionId) s))
  | InterstitialContinueCb nextQuestionId =>
      setIsInterstitialTransitioning false
        (match nextQuestionId with
         | Some next =>
             if truthy (Some next) then
               setCurrentInterstitial None
                 (setQuestionHistory (λ prev, prev ++ [next])
                    (setCurrentQuestionId (Some next) (setStage StQuestions s)))
             else s
         | None => s
         end)
  | InterstitialBackCb previousQuestionId =>
      setIsInterstitialTransitioning false
        (match previousQuestionId with
         | Some previous =>
             if truthy (Some previous) then
               setCurrentInterstitial None
                 (setCurrentQuestionId (Some previous) (setStage StQuestions s))
             else s
         | None => s
         end)
  | PreviousCb previousQuestionId newHistory =>
      setIsTransitioning false
        (setQuestionHistory (λ _, newHistory)
           (setCurrentQuestionId previousQuestionId s))
  end.

(** The [n]-th pending callback runs and leaves the pending list; out
    of range nothing happens. *)
Definition fire (n : nat) (w : World) : World :=
  match timers w !! n with
  | Some t => mkWorld (runCallback (callback t) (state w)) (delete n (timers w)) (externals w)
  | None => w
  end.

(** The user intents the rendered screens can raise. *)
Inductive Intent :=
| Answer (a : QuizAnswer)
| Next
| Previous
| InterstitialContinue.

Definition handle (i : Intent) (w : World) : World :=
  match i with
  | Answer a => handleAnswer a w
  | Next => handleNext w
  | Previous => handlePrevious w
  | InterstitialContinue => handleInterstitialContinue w
  end.

(** One turn of the event loop: an intent, a timer or a bare re-render,
    followed by the completion effect. *)
Inductive Event :=
| Dispatch (i : Intent)
| Fire (n : nat)
| Rerender.

Definition step (e : Event) (w : World) : World :=
  completionEffect
    (match e with
     | Dispatch i => handle i w
     | Fire n => fire n w
     | Rerender => w
     end).

Definition run (es : list Event) (w : World) : World :=
  foldl (λ w e, step e w) w es.

(** Let every pending callback run, oldest first. *)
Definition settle (w : World) : World :=
  Nat.iter (length (timers w)) (step (Fire 0)) w.

(** An intent raised while nothing is pending, and its transition
    allowed to finish before the next one. *)
Definition gatedStep (i : Intent) (w : World) : World :=
  settle (step (Dispatch i) w).

Definition runGated (intents : list Intent) (w : World) : World :=
  foldl (λ w i, gatedStep i w) w intents.

(** ** Derived display values *)

Definition calculateProgress (s : State) : Z :=
  if negb (truthy (currentQuestionId s))
     || (Z.of_nat (length (questions config)) =? 0)
  then 0
  else
    let currentIndex :=
      findIndex
        (λ q, bool_decide (Some (id q) = currentQuestionId s))
        (questions config) in
    if currentIndex =? -1 then 0
    else roundPercent (currentIndex + 1) (Z.of_nat (length (questions config))).

Definition getCurrentQuestionNumber (s : State) : Z :=
  if negb (truthy (currentQuestionId s)) then 1
  else
    findIndex
      (λ q, bool_decide (Some (id q) = currentQuestionId s))
      (questions config) + 1.

Definition canGoBack (s : State) : bool :=
  1 <? Z.of_nat (length (questionHistory s)).

End Controller.

(** ** Concrete collaborators

    Closed examples need a catalog, helpers and a runtime to run on. *)

(** Modelled from the spec: the catalog's next-id function in its
    simple linear form, the id that follows the current one in catalog
    order and [null] after the last ([getNextQuestionId] itself lives in
    [@/utils/quizUtils]). *)
Definition linearNextQuestionId
    (cur : string) (_ : list QuizAnswer) (qs : list QuizQuestion) : option string :=
  let currentIndex := findIndex (λ q, String.eqb (id q) cur) qs in
  if currentIndex =? -1 then None
  else id <$> qs !! Z.to_nat (currentIndex + 1).

(** Modelled from the spec: the prompt text of a question is looked up in
    the catalog by id ([getQuestionText] lives in [@/utils/quizUtils]);
    an unknown id is shown as it is. *)
Definition catalogQuestionText (qid : string) (config : QuizConfig) : string :=
  match find (λ q, String.eqb (id q) qid) (questions config) with
  | Some q => title q
  | None => qid
  end.

(** Modelled from the spec: the label of the selected option is looked up
    in the question's options by value ([getOptionText] lives in
    [@/utils/quizUtils]); an unknown value is shown as it is. *)
Definition catalogOptionText (qid v : string) (config : QuizConfig) : string :=
  match find (λ q, String.eqb (id q) qid) (questions config) with
  | Some q =>
      match find (λ o, String.eqb (optionValue o) v) (options q) with
      | Some o => optionText o
      | None => v
      end
  | None => v
  end.

Definition catalogUtils : QuizUtils :=
  {| getNextQuestionId := linearNextQuestionId;
     getQuestionText := catalogQuestionText;
     getOptionText := catalogOptionText |}.

(** A resolver that sends every question back to itself, as a branching
    rule that names its own question does. *)
Definition selfLoopUtils : QuizUtils :=
  {| getNextQuestionId := λ cur _ _, Some cur;
     getQuestionText := catalogQuestionText;
     getOptionText := catalogOptionText |}.

(** A resolver that names a question the catalog does not have, as a
    branching rule with a stale id does. *)
Definition strayUtils : QuizUtils :=
  {| getNextQuestionId := λ _ _ _, Some "q9";
     getQuestionText := catalogQuestionText;
     getOptionText := catalogOptionText |}.

(** *** The runtime

    A string stands for a JavaScript string through its UTF-8 bytes. *)

Definition isAsciiSpace (c : nat) : bool :=
  (Nat.eqb c 32 || (Nat.leb 9 c && Nat.leb c 13))%bool.

(** The number of bytes of the white space or line terminator code point
    that a byte sequence begins with, [0] when it begins with none.  The
    code points are those [String.prototype.trim] strips: U+0009 to
    U+000D, U+0020, U+00A0, U+1680, U+2000 to U+200A, U+2028, U+2029,
    U+202F, U+205F, U+3000 and U+FEFF. *)
Definition whiteSpacePrefix (l : list nat) : nat :=
  match l with
  | c :: r =>
      if isAsciiSpace c then 1%nat
      else
        match r with
        | d :: r' =>
            if (Nat.eqb c 194 && Nat.eqb d 160)%bool then 2%nat
            else
              match r' with
              | e :: _ =>
                  if ((Nat.eqb c 225 && Nat.eqb d 154 && Nat.eqb e 128)
                      || (Nat.eqb c 226 && Nat.eqb d 128
                          && ((Nat.leb 128 e && Nat.leb e 138)
                              || Nat.eqb e 168 || Nat.eqb e 169 || Nat.eqb e 175))
                      || (Nat.eqb c 226 && Nat.eqb d 129 && Nat.eqb e 159)
                      || (Nat.eqb c 227 && Nat.eqb d 128 && Nat.eqb e 128)
                      || (Nat.eqb c 239 && Nat.eqb d 187 && Nat.eqb e 191))%bool
                  then 3%nat else 0%nat
              | [] => 0%nat
              end
        | [] => 0%nat
        end
  | [] => 0%nat
  end.

(** The same for the end of a byte sequence, given back to front. *)
Definition whiteSpaceSuffix (l : list nat) : nat :=
  match l with
  | c1 :: r =>
      if Nat.eqb (whiteSpacePrefix [c1]) 1 then 1%nat
      else
        match r with
        | c2 :: r' =>
            if Nat.eqb (whiteSpacePrefix [c2; c1]) 2 then 2%nat
            else
              match r' with
              | c3 :: _ => if Nat.eqb (whiteSpacePrefix [c3; c2; c1]) 3 then 3%nat else 0%nat
              | [] => 0%nat
              end
        | [] => 0%nat
        end
  | [] => 0%nat
  end.

(** Drop code points from the front for as long as [measure] finds one. *)
Fixpoint strip (measure : list nat → nat) (fuel : nat) (l : list nat) : list nat :=
  match fuel with
  | O => l
  | S fuel' =>
      match measure l with
      | O => l
      | n => strip measure fuel' (drop n l)
      end
  end.

(** [String.prototype.trim] *)
Definition jsTrim (s : string) : string :=
  let bytes := map nat_of_ascii (list_ascii_of_string s) in
  let front := strip whiteSpacePrefix (length bytes) bytes in
  let back := strip whiteSpaceSuffix (length front) (rev front) in
  string_of_list_ascii (map ascii_of_nat (rev back)).

(** An integer as a double. *)
Definition doubleOfZ (z : Z) : spec_float := binary_normalize 53 1024 z 0 false.

(** [Math.round]: the nearest integer, a tie going up; the value of a
    finite double is [m * 2 ^ e], so the rounding is exact.  Not a
    number and the infinities do not arise from a positive count over a
    positive total and are sent to [0]. *)
Definition mathRound (x : spec_float) : Z :=
  match x with
  | S754_finite s m e =>
      let v := if s then Z.neg m else Z.pos m in
      if 0 <=? e then v * 2 ^ e
      else (2 * v + 2 ^ (- e)) / 2 ^ (- e + 1)
  | _ => 0
  end.

(** [Math.round((i / n) * 100)] in double precision. *)
Definition jsRoundPercent (i n : Z) : Z :=
  mathRound
    (SFmul 53 1024 (SFdiv 53 1024 (doubleOfZ i) (doubleOfZ n)) (doubleOfZ 100)).

(** The runtime of a browser. *)
Definition browserBuiltins : JsBuiltins :=
  {| trim := jsTrim;
     roundPercent := jsRoundPercent |}.

Definition yesNo : list QuizOption :=
  [mkOption "y" "Yes"; mkOption "n" "No"].

(** The catalog of the spec's scenarios: q1 .. q6. *)
Definition sixQuestions : QuizConfig :=
  mkConfig
    [mkQuestion "q1" "First" yesNo; mkQuestion "q2" "Second" yesNo;
     mkQuestion "q3" "Third" yesNo; mkQuestion "q4" "Fourth" yesNo;
     mkQuestion "q5" "Fifth" yesNo; mkQuestion "q6" "Sixth" yesNo]
    None.

(** A catalog with no interstitial between its two questions. *)
Definition twoQuestions : QuizConfig :=
  mkConfig [mkQuestion "q7" "Seventh" yesNo; mkQuestion "q8" "Eighth" yesNo] None.

(** A catalog that starts before q1, so that q1 is reached with a longer
    history. *)
Definition sevenQuestions : QuizConfig :=
  mkConfig
    (mkQuestion "q0" "Warm-up" yesNo :: questions sixQuestions)
    (Some "https://hooks.example/quiz").

(** Two questions that share their prompt text. *)
Definition samePrompt : QuizConfig :=
  mkConfig [mkQuestion "q7" "Pick one" yesNo; mkQuestion "q8" "Pick one" yesNo] None.

(** A question whose prompt text is the name of the prototype accessor. *)
Definition protoPrompt : QuizConfig :=
  mkConfig [mkQuestion "q7" "__proto__" yesNo; mkQuestion "q8" "Eighth" yesNo] None.

Definition oneQuestion : QuizConfig :=
  mkConfig [mkQuestion "q7" "Seventh" yesNo] None.

Definition embedded : Env := mkEnv false false.
Definition topLevel : Env := mkEnv true false.

(** ** Vocabulary of the properties *)

Definition ledger (w : World) : list QuizAnswer := answers (participant (state w)).

Definition sameQuestion (a b : QuizAnswer) : bool :=
  String.eqb (questionId b) (questionId a).

(** The terminal condition the completion effect waits for: the question
    stage with no current question. *)
Definition noCurrentQuestion (s : State) : Prop :=
  stage s = StQuestions ∧ currentQuestionId s = None.

(** The question each interstitial sits after and the one it sits
    before, as [handleInterstitialBack] and [handleInterstitialContinue]
    spell them out. *)
Definition interstitialFrom (k : InterstitialType) : string :=
  match k with IA => "q1" | IB => "q3" | IC => "q5" end.

Definition interstitialTo (k : InterstitialType) : string :=
  match k with IA => "q2" | IB => "q4" | IC => "q6" end.

Definition isPostMessage (e : External) : bool :=
  match e with PostMessage _ => true | _ => false end.

Definition isWebhook (e : External) : bool :=
  match e with SendEmailGateWebhook _ _ _ => true | _ => false end.

Definition isSetLocation (e : External) : bool :=
  match e with SetLocationHref _ => true | _ => false end.

(** The calls among the statements of the completion effect. *)
Fixpoint callsOf (l : list Action) : list External :=
  match l with
  | Call e :: r => e :: callsOf r
  | _ :: r => callsOf r
  | [] => []
  end.

Definition isAnswer (i : Intent) : bool :=
  match i with Answer _ => true | _ => false end.

Definition countCalls (p : External → bool) (w : World) : nat :=
  length (filter (λ e, p e = true) (externals w)).

Fixpoint noAdjacentDuplicates (l : list string) : Prop :=
  match l with
  | a :: r => match r with
              | b :: _ => a ≠ b
              | [] => True
              end ∧ noAdjacentDuplicates r
  | [] => True
  end.

(** What the history promises: no entry repeated next to itself, and the
    question on screen at its end. *)
Definition historyInvariant (s : State) : Prop :=
  noAdjacentDuplicates (questionHistory s)
  ∧ (stage s = StQuestions →
     ∀ q, currentQuestionId s = Some q → last (questionHistory s) = Some q).

Section Vocabulary.
Context {U : QuizUtils} {B : JsBuiltins}.
Variable config : QuizConfig.
Variable env : Env.

Definition promptOf (a : QuizAnswer) : string :=
  getQuestionText (questionId a) config.

Definition labelOf (a : QuizAnswer) : string :=
  getOptionText (questionId a) (value a) config.

(** The prompt texts that become own properties of the summary. *)
Definition ownPrompts (l : list QuizAnswer) : list string :=
  filter (λ t, t ≠ "__proto__") (promptOf <$> l).

(** Answers arrive from a question card, hence while no interstitial
    is on screen. *)
Fixpoint answersOnQuestionCards (intents : list Intent) (w : World) : Prop :=
  match intents with
  | [] => True
  | i :: r =>
      match i with
      | Answer _ => currentInterstitial (state w) = None
      | _ => True
      end
      ∧ answersOnQuestionCards r (gatedStep config env i w)
  end.

(** What a settled navigation run maintains about the history, the
    current question and the interstitial on screen. *)
Definition historyShape (s : State) : Prop :=
  isInterstitialTransitioning s = false
  ∧ noAdjacentDuplicates (questionHistory s)
  ∧ (∀ q, currentQuestionId s = Some q → last (questionHistory s) = Some q)
  ∧ (∀ k, currentInterstitial s = Some k →
       currentQuestionId s = Some (interstitialFrom k)
       ∧ getNextQuestionId (interstitialFrom k) (answers (participant s))
           (questions config) = Some (interstitialTo k))
  ∧ (questions config ≠ [] → questionHistory s ≠ []).

Definition navigationInvariant (w : World) : Prop :=
  timers w = []
  ∧ completionCondition (state w) = false
  ∧ historyShape (state w).

(** The next-id resolver never answers with the question it was asked
    about. *)
Definition resolverMovesOn : Prop :=
  ∀ q l, getNextQuestionId q l (questions config) ≠ Some q.

(** The session so far has dispatched nothing, or exactly the calls of
    one completion. *)
Definition completionLog (w : World) : Prop :=
  (hasSentCompletionData (state w) = false ∧ externals w = [])
  ∨ (hasSentCompletionData (state w) = true
     ∧ ∃ l, externals w = webhookCalls config l ++ redirectCalls env).

End Vocabulary.

(** Closes a decidable goal on closed terms by evaluation. *)
Ltac by_evaluation := apply (bool_decide_unpack _); vm_compute; exact I.

(** ** What is rendered *)

Section Render.
Variable config : QuizConfig.

(** [currentQuestion]: [None] is [null] or the [undefined] of a failed
    [find]; both are falsy where the value is tested. *)
Definition currentQuestion (s : State) : option QuizQuestion :=
  if truthy (currentQuestionId s)
  then find (λ q, bool_decide (Some (id q) = currentQuestionId s)) (questions config)
  else None.

(** [currentAnswer] *)
Definition currentAnswer (s : State) : option QuizAnswer :=
  if truthy (currentQuestionId s)
  then find (λ a, bool_decide (Some (questionId a) = currentQuestionId s))
         (answers (participant s))
  else None.

(** The element [renderStage] returns, with the props that carry state.
    The generic interstitial card needs [interstitialData], which stays
    [null], so that stage renders nothing. *)
Inductive Screen :=
| QuestionCardScreen (question : QuizQuestion) (answer : option QuizAnswer)
    (goBack transitioning : bool)
| FinalizingScreen
| InterstitialStepScreen (type : InterstitialType) (transitioning : bool)
| RedirectingScreen
| NoScreen.

Definition renderStage (s : State) : Screen :=
  match stage s with
  | StQuestions =>
      match currentQuestion s with
      | Some q => QuestionCardScreen q (currentAnswer s) (canGoBack s) (isTransitioning s)
      | None => FinalizingScreen
      end
  | StInterstitialOf k => InterstitialStepScreen k (isInterstitialTransitioning s)
  | StInterstitial => NoScreen
  | StRedirecting => RedirectingScreen
  | StIntro => NoScreen
  end.

(** The progress bar is rendered under
    [stage === "questions" && currentQuestion]. *)
Definition showProgressBar (s : State) : bool :=
  bool_decide (stage s = StQuestions)
  && match currentQuestion s with Some _ => true | None => false end.

End Render.

(** The handlers a rendered element receives: [onAnswer], [onNext] and
    [onPrevious] go to the question card, [onContinue] to the
    interstitial step, and the two spinners receive none. *)
Definition offers (scr : Screen) (i : Intent) : bool :=
  match scr, i with
  | QuestionCardScreen _ _ _ _, (Answer _ | Next | Previous) => true
  | InterstitialStepScreen _ _, InterstitialContinue => true
  | _, _ => false
  end.

(** The stage and the interstitial cell tell the same story. *)
Definition stageShape (s : State) : Prop :=
  ((stage s = StQuestions ∨ stage s = StRedirecting) ∧ currentInterstitial s = None)
  ∨ ∃ k, stage s = StInterstitialOf k ∧ currentInterstitial s = Some k.

Definition isInterstitialBackCb (cb : Callback) : bool :=
  match cb with InterstitialBackCb _ => true | _ => false end.

(** The delay each kind of callback is scheduled with. *)
Definition delayOf (cb : Callback) : nat :=
  match cb with
  | ShowInterstitialCb _ => 300
  | NextQuestionCb _ => 50
  | InterstitialContinueCb _ => 500
  | InterstitialBackCb _ => 500
  | PreviousCb _ _ => 50
  end.

(** What every pending callback satisfies: the delay of its kind, an
    interstitial exit aimed at one of the table's questions, and a back
    step that carries a non-empty history that begins like the session's
    history together with that history's last entry. *)
Definition pendingOk (first : option string) (t : Timer) : Prop :=
  delay t = delayOf (callback t)
  ∧ match callback t with
    | InterstitialContinueCb next => ∃ k, next = Some (interstitialTo k)
    | InterstitialBackCb previous => ∃ k, previous = Some (interstitialFrom k)
    | PreviousCb previous newHistory =>
        previous = last newHistory ∧ is_Some previous ∧ head newHistory = first
    | _ => True
    end.

(** An id a session can come to hold as its current question: a
    non-empty string, or an id of the catalog. *)
Definition idOk (config : QuizConfig) (q : string) : Prop :=
  q ≠ "" ∨ q ∈ id <$> questions config.

Definition pendingIdsOk (config : QuizConfig) (t : Timer) : Prop :=
  match callback t with
  | NextQuestionCb n => idOk config n
  | PreviousCb previous newHistory =>
      (∀ q, previous = Some q → idOk config q) ∧ Forall (idOk config) newHistory
  | _ => True
  end.

Definition idsShape (config : QuizConfig) (w : World) : Prop :=
  (∀ q, currentQuestionId (state w) = Some q → idOk config q)
  ∧ Forall (idOk config) (questionHistory (state w))
  ∧ Forall (pendingIdsOk config) (timers w).

(** The history begins with [first] and every pending callback is in
    order. *)
Definition sessionShape (first : string) (w : World) : Prop :=
  head (questionHistory (state w)) = Some first
  ∧ Forall (pendingOk (Some first)) (timers w).

Section RenderedRuns.
Context {U : QuizUtils} {B : JsBuiltins}.
Variable config : QuizConfig.
Variable env : Env.

(** Runs in which every intent comes from the element on screen. *)
Fixpoint offeredRun (es : list Event) (w : World) : Prop :=
  match es with
  | [] => True
  | e :: r =>
      match e with
      | Dispatch i => offers (renderStage config (state w)) i = true
      | _ => True
      end
      ∧ offeredRun r (step config env e w)
  end.

End RenderedRuns.

(** * Properties *)

(** ** [findIndex] *)

Lemma findIndexFrom_none {A} (p : A → bool) (l : list A) (k : Z) :
  0 ≤ k → findIndexFrom p l k = -1 ↔ ∀ x, x ∈ l → p x = false.
Proof.
  revert k. induction l as [|x l IH]; intros k Hk; simpl.
  - split; [intros _ y Hy; inversion Hy | reflexivity].
  - destruct (p x) eqn:Hpx.
    + split; [lia|]. intros Hall. specialize (Hall x (list_elem_of_here _ _)). congruence.
    + rewrite IH by lia. split.
      * intros Hall y Hy. apply elem_of_cons in Hy as [->|Hy]; auto.
      * intros Hall y Hy. apply Hall. by apply list_elem_of_further.
Qed.

Lemma findIndexFrom_some {A} (p : A → bool) (l : list A) (k : Z) :
  0 ≤ k → findIndexFrom p l k ≠ -1 →
  ∃ (i : nat) (x : A),
    findIndexFrom p l k = k + Z.of_nat i ∧ l !! i = Some x ∧ p x = true ∧
    ∀ (j : nat) (y : A), (j < i)%nat → l !! j = Some y → p y = false.
Proof.
  revert k. induction l as [|x l IH]; intros k Hk; simpl; [done|].
  destruct (p x) eqn:Hpx.
  - intros _. exists 0%nat, x. repeat split; [lia | done | lia].
  - intros Hne. destruct (IH (k + 1) ltac:(lia) Hne) as (i & y & Hi & Hy & Hpy & Hmin).
    exists (S i), y. repeat split; [lia | done | done |].
    intros [|j] z Hj Hz; simpl in Hz.
    + by inversion Hz; subst.
    + eapply Hmin; [|done]. lia.
Qed.

Lemma findIndex_none {A} (p : A → bool) (l : list A) :
  findIndex p l = -1 ↔ ∀ x, x ∈ l → p x = false.
Proof. by apply findIndexFrom_none. Qed.

Lemma findIndex_some {A} (p : A → bool) (l : list A) :
  findIndex p l ≠ -1 →
  ∃ (i : nat) (x : A),
    findIndex p l = Z.of_nat i ∧ l !! i = Some x ∧ p x = true ∧
    ∀ (j : nat) (y : A), (j < i)%nat → l !! j = Some y → p y = false.
Proof.
  intros Hne. destruct (findIndexFrom_some p l 0 ltac:(lia) Hne) as (i & x & Hi & ?).
  exists i, x. split; [|done]. unfold findIndex. lia.
Qed.

(** ** The answer ledger *)

Lemma recordAnswer_unfold (a : QuizAnswer) (l : list QuizAnswer) :
  recordAnswer a l =
    if findIndex (sameQuestion a) l >? -1
    then <[Z.to_nat (findIndex (sameQuestion a) l) := a]> l
    else l ++ [a].
Proof. reflexivity. Qed.

Lemma sameQuestion_true (a b : QuizAnswer) :
  sameQuestion a b = true ↔ questionId b = questionId a.
Proof. apply String.eqb_eq. Qed.

Lemma sameQuestion_false (a b : QuizAnswer) :
  sameQuestion a b = false ↔ questionId b ≠ questionId a.
Proof. apply String.eqb_neq. Qed.

Lemma recordAnswer_found (a : QuizAnswer) (l : list QuizAnswer) :
  questionId a ∈ questionId <$> l →
  ∃ (i : nat) (old : QuizAnswer),
    l !! i = Some old ∧ questionId old = questionId a ∧
    (∀ (j : nat) (b : QuizAnswer), (j < i)%nat → l !! j = Some b → questionId b ≠ questionId a) ∧
    recordAnswer a l = <[i := a]> l.
Proof.
  intros Hin. apply list_elem_of_fmap in Hin as (b & Hb & Hbl).
  destruct (findIndex_some (sameQuestion a) l) as (i & old & Hi & Hold & Hp & Hmin).
  { rewrite findIndex_none. intros Hall. specialize (Hall b Hbl).
    apply sameQuestion_false in Hall. done. }
  exists i, old. apply sameQuestion_true in Hp. split_and!; [done | done | |].
  - intros j c Hj Hc. apply sameQuestion_false. eauto.
  - rewrite recordAnswer_unfold, Hi.
    destruct (Z.gtb_spec (Z.of_nat i) (-1)); [|lia].
    by rewrite Nat2Z.id.
Qed.

Lemma recordAnswer_fresh (a : QuizAnswer) (l : list QuizAnswer) :
  questionId a ∉ questionId <$> l → recordAnswer a l = l ++ [a].
Proof.
  intros Hnin.
  assert (findIndex (sameQuestion a) l = -1) as Hnone.
  { apply findIndex_none. intros b Hb. apply sameQuestion_false.
    intros Heq. apply Hnin. rewrite <- Heq.
    apply list_elem_of_fmap. eauto. }
  by rewrite recordAnswer_unfold, Hnone.
Qed.

Lemma recordAnswer_ids_found (a : QuizAnswer) (l : list QuizAnswer) :
  questionId a ∈ questionId <$> l →
  questionId <$> recordAnswer a l = questionId <$> l.
Proof.
  intros Hin. destruct (recordAnswer_found a l Hin) as (i & old & Hi & Hid & _ & ->).
  rewrite list_fmap_insert. apply list_insert_id.
  by rewrite list_lookup_fmap, Hi, <- Hid.
Qed.

(** The ledger never holds two answers of one question. *)
Lemma recordAnswer_NoDup (a : QuizAnswer) (l : list QuizAnswer) :
  NoDup (questionId <$> l) → NoDup (questionId <$> recordAnswer a l).
Proof.
  intros Hnd. destruct (decide (questionId a ∈ questionId <$> l)) as [Hin|Hnin].
  - by rewrite recordAnswer_ids_found.
  - rewrite recordAnswer_fresh, fmap_app by done. simpl.
    apply NoDup_app. split_and!; [done | | apply NoDup_singleton].
    intros x Hx Hx'. apply list_elem_of_singleton in Hx'. by subst.
Qed.

(** C6. [handleAnswer] is total and touches only the ledger.  When the
    ledger already has an entry for the answered question, the first (and,
    the ledger being keyed by question, only) such entry is overwritten
    where it stands: the length, the order of question ids and every
    other entry stay as they were.  Otherwise the answer is appended and
    the old entries form an unchanged prefix. *)
Theorem handleAnswer_replaces_or_appends (a : QuizAnswer) (w : World) :
  (∃ p, state (handleAnswer a w) = setParticipant p (state w))
  ∧ timers (handleAnswer a w) = timers w
  ∧ externals (handleAnswer a w) = externals w
  ∧ (questionId a ∈ questionId <$> ledger w →
     ∃ (i : nat) (old : QuizAnswer),
       ledger w !! i = Some old ∧ questionId old = questionId a
       ∧ (∀ (j : nat) (b : QuizAnswer),
            (j < i)%nat → ledger w !! j = Some b → questionId b ≠ questionId a)
       ∧ ledger (handleAnswer a w) !! i = Some a
       ∧ length (ledger (handleAnswer a w)) = length (ledger w)
       ∧ questionId <$> ledger (handleAnswer a w) = questionId <$> ledger w
       ∧ ∀ j : nat, j ≠ i → ledger (handleAnswer a w) !! j = ledger w !! j)
  ∧ (questionId a ∉ questionId <$> ledger w →
     ledger (handleAnswer a w) = ledger w ++ [a]).
Proof.
  split_and!; [by eexists | done | done | |].
  - intros Hin. destruct (recordAnswer_found a _ Hin) as (i & old & Hi & Hid & Hmin & Heq).
    exists i, old. unfold ledger in *. simpl. rewrite Heq.
    split_and!; [done | done | done | | | |].
    + apply list_lookup_insert_eq. by eapply lookup_lt_Some.
    + apply length_insert.
    + rewrite <- Heq. by apply recordAnswer_ids_found.
    + intros j Hj. by apply list_lookup_insert_ne.
  - intros Hnin. unfold ledger in *. simpl. by apply recordAnswer_fresh.
Qed.

Lemma handleAnswer_replaces_or_appends_witness :
  let w := mkWorld (setParticipant (mkParticipant "" "" [mkAnswer "q1" "y"; mkAnswer "q2" "n"])
                      (initialState sixQuestions)) [] [] in
  (∃ (i : nat) (old : QuizAnswer),
     ledger w !! i = Some old ∧ questionId old = "q2"
     ∧ ledger (handleAnswer (mkAnswer "q2" "y") w) !! i = Some (mkAnswer "q2" "y")
     ∧ length (ledger (handleAnswer (mkAnswer "q2" "y") w)) = 2%nat)
  ∧ ledger (handleAnswer (mkAnswer "q3" "y") w)
    = [mkAnswer "q1" "y"; mkAnswer "q2" "n"; mkAnswer "q3" "y"].
Proof.
  intros w. split.
  - destruct (handleAnswer_replaces_or_appends (mkAnswer "q2" "y") w)
      as (_ & _ & _ & Hfound & _).
    destruct Hfound as (i & old & Hi & Hid & _ & Hnew & Hlen & _).
    { vm_compute. apply list_elem_of_further, list_elem_of_here. }
    exists i, old. split_and!; [exact Hi | exact Hid | exact Hnew | exact Hlen].
  - destruct (handleAnswer_replaces_or_appends (mkAnswer "q3" "y") w)
      as (_ & _ & _ & _ & Hfresh).
    apply Hfresh. vm_compute. intros Hin.
    repeat (apply elem_of_cons in Hin as [Hin|Hin]; [discriminate Hin|]).
    inversion Hin.
Defined.

(** ** Session start *)

(** C9. With a non-empty catalog the session starts on the question
    stage, at the first catalog entry, with that entry as the whole
    history; with an empty catalog it starts in the terminal
    no-current-question condition, [currentQuestionId] being [null] (and
    the history empty).  Nothing is pending or dispatched at the start. *)
Theorem initialState_start (config : QuizConfig) :
  (∀ q rest, questions config = q :: rest →
     stage (initialState config) = StQuestions
     ∧ currentQuestionId (initialState config) = Some (id q)
     ∧ questionHistory (initialState config) = [id q])
  ∧ (questions config = [] →
     noCurrentQuestion (initialState config)
     ∧ currentQuestionId (initialState config) = None
     ∧ questionHistory (initialState config) = [])
  ∧ state (initialWorld config) = initialState config
  ∧ timers (initialWorld config) = []
  ∧ externals (initialWorld config) = [].
Proof.
  unfold initialState, noCurrentQuestion. split_and!; try done.
  - intros q rest ->. done.
  - intros ->. done.
Qed.

Lemma initialState_start_witness :
  (stage (initialState sixQuestions) = StQuestions
   ∧ currentQuestionId (initialState sixQuestions) = Some "q1"
   ∧ questionHistory (initialState sixQuestions) = ["q1"])
  ∧ noCurrentQuestion (initialState (mkConfig [] None)).
Proof.
  split.
  - exact (proj1 (initialState_start sixQuestions) _ _ eq_refl).
  - exact (proj1 (proj1 (proj2 (initialState_start (mkConfig [] None))) eq_refl)).
Defined.

(** ** Derived display values *)

Section Display.
Context {B : JsBuiltins}.
Variable config : QuizConfig.

Lemma truthy_Some (q : string) : truthy (Some q) = true ↔ q ≠ "".
Proof.
  unfold truthy. destruct (String.eqb_spec q ""); simpl; split; congruence.
Qed.

Lemma findIndex_id_absent (s : State) :
  (∀ x, x ∈ questions config → Some (id x) ≠ currentQuestionId s) →
  findIndex (λ q, bool_decide (Some (id q) = currentQuestionId s)) (questions config) = -1.
Proof.
  intros Habs. apply findIndex_none. intros x Hx.
  apply bool_decide_eq_false. auto.
Qed.

(** The two display functions on any state.  They test
    [currentQuestionId] for truthiness, so the empty string counts as no
    question: for [null] and for [""] the question number is 1 and the
    progress 0; for a non-empty id that is not in the catalog the
    question number is 0 and the progress 0. *)
Theorem display_values_off_catalog (s : State) :
  (currentQuestionId s = None →
     getCurrentQuestionNumber config s = 1 ∧ calculateProgress config s = 0)
  ∧ (currentQuestionId s = Some "" →
     getCurrentQuestionNumber config s = 1 ∧ calculateProgress config s = 0)
  ∧ (∀ q, currentQuestionId s = Some q → q ≠ "" →
       (∀ x, x ∈ questions config → id x ≠ q) →
       getCurrentQuestionNumber config s = 0 ∧ calculateProgress config s = 0).
Proof.
  unfold getCurrentQuestionNumber, calculateProgress. split_and!.
  - intros ->. done.
  - intros ->. done.
  - intros q Hq Hne Habs.
    assert (findIndex (λ x, bool_decide (Some (id x) = currentQuestionId s))
              (questions config) = -1) as Hidx.
    { apply findIndex_id_absent. intros x Hx. rewrite Hq. intros [= Heq].
      by apply (Habs x Hx). }
    rewrite Hidx, Hq. apply truthy_Some in Hne. rewrite Hne. simpl.
    split; [done|]. by destruct (_ =? 0).
Qed.

End Display.

Lemma off_catalog (qs : list QuizQuestion) (q : string) :
  q ∉ id <$> qs → ∀ x, x ∈ qs → id x ≠ q.
Proof.
  intros Hnin x Hx Heq. apply Hnin. rewrite <- Heq.
  apply list_elem_of_fmap. eauto.
Qed.

Lemma display_values_off_catalog_witness :
  (getCurrentQuestionNumber sixQuestions
     (setCurrentQuestionId None (initialState sixQuestions)) = 1)
  ∧ (getCurrentQuestionNumber sixQuestions
       (setCurrentQuestionId (Some "") (initialState sixQuestions)) = 1)
  ∧ (getCurrentQuestionNumber sixQuestions
       (setCurrentQuestionId (Some "q9") (initialState sixQuestions)) = 0
     ∧ @calculateProgress browserBuiltins sixQuestions
         (setCurrentQuestionId (Some "q9") (initialState sixQuestions)) = 0).
Proof.
  split; [|split].
  - destruct (@display_values_off_catalog browserBuiltins sixQuestions
                (setCurrentQuestionId None (initialState sixQuestions)))
      as (Hnull & _ & _).
    exact (proj1 (Hnull eq_refl)).
  - destruct (@display_values_off_catalog browserBuiltins sixQuestions
                (setCurrentQuestionId (Some "") (initialState sixQuestions)))
      as (_ & Hempty & _).
    exact (proj1 (Hempty eq_refl)).
  - destruct (@display_values_off_catalog browserBuiltins sixQuestions
                (setCurrentQuestionId (Some "q9") (initialState sixQuestions)))
      as (_ & _ & Hoff).
    apply (Hoff "q9"); [reflexivity | discriminate |].
    apply off_catalog. by_evaluation.
Defined.

(** ** The redirect *)

Section Redirect.
Context {U : QuizUtils} {B : JsBuiltins}.
Variable config : QuizConfig.
Variable env : Env.

Lemma externals_runActions (l : list Action) (w : World) :
  externals (runActions l w) = externals w ++ callsOf l.
Proof.
  revert w. induction l as [|a l IH]; intros w; simpl.
  - by rewrite app_nil_r.
  - unfold runActions in *. simpl. rewrite IH.
    destruct a; simpl; [done | done |]. by rewrite <- app_assoc.
Qed.

Lemma callsOf_Call (l : list External) : callsOf (map Call l) = l.
Proof. induction l as [|e l IH]; simpl; [done|]. by rewrite IH. Qed.

Lemma callsOf_app (l1 l2 : list Action) : callsOf (l1 ++ l2) = callsOf l1 ++ callsOf l2.
Proof.
  induction l1 as [|a l1 IH]; simpl; [done|].
  destruct a; simpl; by rewrite ?IH.
Qed.

Lemma callsOf_completionActions (l : list QuizAnswer) :
  callsOf (completionActions config env l) = webhookCalls config l ++ redirectCalls env.
Proof.
  unfold completionActions.
  change ([SetHasSentCompletionData true; SetStage StRedirecting] ++ ?r)
    with (SetHasSentCompletionData true :: SetStage StRedirecting :: r).
  cbn [callsOf]. by rewrite callsOf_app, !callsOf_Call.
Qed.

Lemma externals_completionEffect (w : World) :
  completionCondition (state w) = true →
  externals (completionEffect config env w)
  = externals w ++ webhookCalls config (ledger w) ++ redirectCalls env.
Proof.
  intros Hcond. unfold completionEffect. rewrite Hcond.
  by rewrite externals_runActions, callsOf_completionActions.
Qed.

(** C8. When the completion effect runs, its last calls are the
    redirect: [window.parent.postMessage] is attempted first; when the
    window is its own parent the location is then set directly; when
    [postMessage] throws the location is set directly from the [catch];
    so either the message went out without throwing or the location was
    set, and only an embedded session whose message goes out is left to
    the message alone. *)
Theorem redirect_always_initiated (w : World) :
  completionCondition (state w) = true →
  (∃ before, externals (completionEffect config env w) = before ++ redirectCalls env)
  ∧ (∃ fallback, redirectCalls env = PostMessage redirectUrl :: fallback
                 ∧ (fallback = [] ∨ fallback = [SetLocationHref redirectUrl]))
  ∧ (parentIsWindow env = true → SetLocationHref redirectUrl ∈ redirectCalls env)
  ∧ (postMessageThrows env = true → SetLocationHref redirectUrl ∈ redirectCalls env)
  ∧ (postMessageThrows env = false ∨ SetLocationHref redirectUrl ∈ redirectCalls env)
  ∧ (parentIsWindow env = false → postMessageThrows env = false →
     redirectCalls env = [PostMessage redirectUrl]).
Proof.
  intros Hcond. split_and!.
  - eexists. rewrite externals_completionEffect by done. by rewrite app_assoc.
  - unfold redirectCalls. eexists. split; [done|].
    destruct (postMessageThrows env), (parentIsWindow env); auto.
  - unfold redirectCalls. intros ->. destruct (postMessageThrows env); set_solver.
  - unfold redirectCalls. intros ->. set_solver.
  - unfold redirectCalls. destruct (postMessageThrows env); [right|by left]. set_solver.
  - unfold redirectCalls. by intros -> ->.
Qed.

End Redirect.

Lemma redirect_always_initiated_witness :
  let w := @handleNext catalogUtils oneQuestion
             (handleAnswer (mkAnswer "q7" "y") (initialWorld oneQuestion)) in
  SetLocationHref redirectUrl ∈ redirectCalls topLevel
  ∧ ∃ before,
      externals (@completionEffect catalogUtils browserBuiltins oneQuestion topLevel w)
      = before ++ redirectCalls topLevel.
Proof.
  intros w.
  destruct (@redirect_always_initiated catalogUtils browserBuiltins oneQuestion topLevel w)
    as (Hlast & _ & Htop & _); [reflexivity|].
  split; [apply Htop; reflexivity | exact Hlast].
Defined.

(** ** The completion trigger *)

Section Completion.
Context {U : QuizUtils} {B : JsBuiltins}.
Variable config : QuizConfig.
Variable env : Env.

Lemma completionCondition_true (s : State) :
  completionCondition s = true
  ↔ noCurrentQuestion s ∧ answers (participant s) ≠ [] ∧ hasSentCompletionData s = false.
Proof.
  unfold completionCondition, noCurrentQuestion.
  rewrite !andb_true_iff, !bool_decide_eq_true, negb_true_iff, Z.ltb_lt.
  destruct (answers (participant s)); simpl; split.
  - lia.
  - intros (_ & Hne & _). done.
  - intros (((Hst & Hcur) & _) & Hlatch). done.
  - intros ((Hst & Hcur) & _ & Hlatch). split_and!; [done | done | lia | done].
Qed.

Lemma completionEffect_idle (w : World) :
  completionCondition (state w) = false → completionEffect config env w = w.
Proof. intros Hcond. unfold completionEffect. by rewrite Hcond. Qed.

Lemma completionEffect_latched (w : World) :
  hasSentCompletionData (state w) = true → completionEffect config env w = w.
Proof.
  intros Hlatch. apply completionEffect_idle.
  unfold completionCondition. rewrite Hlatch. simpl. by rewrite andb_false_r.
Qed.

Lemma state_runActions_calls (l : list External) (w : World) :
  state (runActions (map Call l) w) = state w
  ∧ timers (runActions (map Call l) w) = timers w.
Proof.
  revert w. induction l as [|e l IH]; intros w; [done|].
  unfold runActions in *. simpl. by rewrite !(proj1 (IH _)), !(proj2 (IH _)).
Qed.

Lemma state_completionEffect (w : World) :
  completionCondition (state w) = true →
  state (completionEffect config env w)
  = setStage StRedirecting (setHasSentCompletionData true (state w)).
Proof.
  intros Hcond. unfold completionEffect, completionActions. rewrite Hcond.
  rewrite <- map_app.
  change (runActions ([?a; ?b] ++ ?r) w)
    with (runActions r (runAction b (runAction a w))).
  by rewrite (proj1 (state_runActions_calls _ _)).
Qed.

Lemma timers_completionEffect (w : World) :
  timers (completionEffect config env w) = timers w.
Proof.
  unfold completionEffect, completionActions.
  destruct (completionCondition (state w)); [|done].
  rewrite <- map_app.
  change (runActions ([?a; ?b] ++ ?r) w)
    with (runActions r (runAction b (runAction a w))).
  by rewrite (proj2 (state_runActions_calls _ _)).
Qed.

(** The effect either leaves the state alone or latches and moves to
    the redirecting stage. *)
Lemma state_completionEffect_cases (w : World) :
  state (completionEffect config env w) = state w
  ∨ (completionCondition (state w) = true
     ∧ state (completionEffect config env w)
       = setStage StRedirecting (setHasSentCompletionData true (state w))).
Proof.
  destruct (completionCondition (state w)) eqn:Hcond.
  - right. split; [done|]. by apply state_completionEffect.
  - left. by rewrite completionEffect_idle.
Qed.

Lemma redirectCalls_not_nil : redirectCalls env ≠ [].
Proof. done. Qed.

(** No handler and no timer callback writes the latch or dispatches. *)
Lemma handle_keeps_latch (i : Intent) (w : World) :
  hasSentCompletionData (state (handle config i w)) = hasSentCompletionData (state w)
  ∧ externals (handle config i w) = externals w.
Proof.
  destruct i; simpl; [done | | |].
  - unfold handleNext. repeat case_match; done.
  - unfold handlePrevious, handleInterstitialBack. repeat case_match; done.
  - unfold handleInterstitialContinue. repeat case_match; done.
Qed.

Lemma fire_keeps_latch (n : nat) (w : World) :
  hasSentCompletionData (state (fire n w)) = hasSentCompletionData (state w)
  ∧ externals (fire n w) = externals w.
Proof.
  unfold fire. destruct (timers w !! n) as [[d cb]|]; [|done]. simpl.
  destruct cb; simpl; repeat case_match; done.
Qed.

Lemma pre_effect_keeps_latch (e : Event) (w : World) :
  let w' := match e with
            | Dispatch i => handle config i w
            | Fire n => fire n w
            | Rerender => w
            end in
  hasSentCompletionData (state w') = hasSentCompletionData (state w)
  ∧ externals w' = externals w.
Proof.
  destruct e; simpl; [apply handle_keeps_latch | apply fire_keeps_latch | done].
Qed.

Lemma step_latched (e : Event) (w : World) :
  hasSentCompletionData (state w) = true →
  hasSentCompletionData (state (step config env e w)) = true
  ∧ externals (step config env e w) = externals w.
Proof.
  intros Hlatch. unfold step.
  destruct (pre_effect_keeps_latch e w) as [Hl He].
  rewrite completionEffect_latched by congruence. split; congruence.
Qed.

Lemma run_latched (es : list Event) (w : World) :
  hasSentCompletionData (state w) = true →
  hasSentCompletionData (state (run config env es w)) = true
  ∧ externals (run config env es w) = externals w.
Proof.
  revert w. induction es as [|e es IH]; intros w Hlatch; [done|].
  unfold run in *. simpl.
  destruct (step_latched e w Hlatch) as [Hl He].
  destruct (IH _ Hl) as [Hl' He']. split; congruence.
Qed.

Lemma completionLog_step (e : Event) (w : World) :
  completionLog config env w → completionLog config env (step config env e w).
Proof.
  intros [[Hlatch Hext]|[Hlatch Hext]].
  - unfold step. destruct (pre_effect_keeps_latch e w) as [Hl He].
    set (w' := match e with
               | Dispatch i => handle config i w
               | Fire n => fire n w
               | Rerender => w
               end) in *.
    destruct (completionCondition (state w')) eqn:Hcond.
    + right. rewrite state_completionEffect, externals_completionEffect by done.
      split; [done|]. exists (ledger w'). by rewrite He, Hext.
    + left. rewrite completionEffect_idle by done. split; congruence.
  - right. destruct (step_latched e w Hlatch) as [Hl He]. split; [done|].
    by rewrite He.
Qed.

Lemma completionLog_run (es : list Event) (w : World) :
  completionLog config env w → completionLog config env (run config env es w).
Proof.
  revert w. induction es as [|e es IH]; intros w Hlog; [done|].
  unfold run in *. simpl. by apply IH, completionLog_step.
Qed.

Lemma completionLog_counts (w : World) :
  completionLog config env w →
  (countCalls isPostMessage w ≤ 1)%nat
  ∧ (countCalls isWebhook w ≤ 1)%nat
  ∧ (countCalls isSetLocation w ≤ 1)%nat.
Proof.
  unfold countCalls.
  intros [[_ ->]|[_ [l ->]]]; [simpl; lia|].
  unfold webhookCalls, redirectCalls.
  destruct (webhookUrl config) as [url|];
    [destruct (truthy (Some url) && negb (trim url =? "")%string)|];
    destruct (postMessageThrows env), (parentIsWindow env);
    vm_compute; lia.
Qed.

Lemma calls_prefix (cs : list External) (pre post : list Action) (e : External) :
  map Call cs = pre ++ Call e :: post → ∃ ps, pre = map Call ps.
Proof.
  revert pre. induction cs as [|c cs IH]; intros [|a pre] Heq; simpl in Heq;
    try discriminate Heq.
  - by exists [].
  - injection Heq as <- Heq. destruct (IH _ Heq) as [ps ->]. by exists (c :: ps).
Qed.

(** At the moment of any call of the effect the latch is already set. *)
Lemma latch_set_before_calls (w : World) (pre post : list Action) (e : External) :
  completionActions config env (ledger w) = pre ++ Call e :: post →
  hasSentCompletionData (state (runActions pre w)) = true.
Proof.
  unfold completionActions. rewrite <- map_app.
  generalize (webhookCalls config (ledger w) ++ redirectCalls env). intros cs Heq.
  destruct pre as [|a [|b pre]]; simpl in Heq; try discriminate Heq.
  injection Heq as <- <- Heq.
  destruct (calls_prefix _ _ _ _ Heq) as [ps ->].
  change (runActions (?a :: ?b :: ?r) w)
    with (runActions r (runAction b (runAction a w))).
  by rewrite (proj1 (state_runActions_calls _ _)).
Qed.

(** C1. The completion effect dispatches exactly when the stage is the
    question stage with no current question, the ledger is non-empty
    and the latch is unset.  Setting the latch is its first statement
    and the latch is set at the moment of each of its calls.  Once the
    latch is set, no sequence of intents, timers and re-renders
    dispatches anything more, and the latch stays set; so a whole
    session sends at most one webhook, one redirect message and one
    direct navigation. *)
Theorem completion_fires_at_most_once (w : World) :
  (externals (completionEffect config env w) ≠ externals w
   ↔ noCurrentQuestion (state w) ∧ ledger w ≠ []
     ∧ hasSentCompletionData (state w) = false)
  ∧ (∃ rest, completionActions config env (ledger w)
             = SetHasSentCompletionData true :: rest)
  ∧ (∀ pre post e,
       completionActions config env (ledger w) = pre ++ Call e :: post →
       hasSentCompletionData (state (runActions pre w)) = true)
  ∧ (completionCondition (state w) = true →
     hasSentCompletionData (state (completionEffect config env w)) = true
     ∧ ∀ es, externals (run config env es (completionEffect config env w))
             = externals (completionEffect config env w))
  ∧ (∀ es, hasSentCompletionData (state w) = true →
       externals (run config env es w) = externals w
       ∧ hasSentCompletionData (state (run config env es w)) = true)
  ∧ (∀ es, (countCalls isPostMessage (run config env es (initialWorld config)) ≤ 1)%nat
           ∧ (countCalls isWebhook (run config env es (initialWorld config)) ≤ 1)%nat
           ∧ (countCalls isSetLocation (run config env es (initialWorld config)) ≤ 1)%nat).
Proof.
  split_and!.
  - rewrite <- completionCondition_true.
    destruct (completionCondition (state w)) eqn:Hcond.
    + split; [done|]. intros _. rewrite externals_completionEffect by done.
      intros Heq. apply (f_equal length) in Heq. rewrite !length_app in Heq.
      pose proof redirectCalls_not_nil as Hne.
      destruct (redirectCalls env); [done|]. simpl in Heq. lia.
    + rewrite completionEffect_idle by done. split; [done|discriminate].
  - by eexists.
  - intros pre post e. apply latch_set_before_calls.
  - intros Hcond.
    assert (hasSentCompletionData (state (completionEffect config env w)) = true) as Hl.
    { by rewrite state_completionEffect. }
    split; [done|]. intros es. by apply run_latched.
  - intros es Hlatch. destruct (run_latched es w Hlatch). done.
  - intros es. apply completionLog_counts, completionLog_run. by left.
Qed.

End Completion.

Lemma completion_fires_at_most_once_witness :
  let w := @handleNext catalogUtils oneQuestion
             (handleAnswer (mkAnswer "q7" "y") (initialWorld oneQuestion)) in
  let fired := @completionEffect catalogUtils browserBuiltins oneQuestion topLevel w in
  externals fired ≠ externals w
  ∧ externals (@run catalogUtils browserBuiltins oneQuestion topLevel
                 [Rerender; Dispatch Previous; Dispatch Next; Fire 0; Rerender] fired)
    = externals fired.
Proof.
  intros w fired.
  destruct (@completion_fires_at_most_once catalogUtils browserBuiltins oneQuestion topLevel w)
    as (Hiff & _ & _ & Hafter & _).
  split.
  - apply Hiff. vm_compute. split_and!; [reflexivity | reflexivity | discriminate | reflexivity].
  - apply Hafter. reflexivity.
Defined.

(** ** Navigation *)

#[local] Arguments completionEffect : simpl never.

Lemma shouldShowInterstitial_Some (fromId toId : string) (k : InterstitialType) :
  shouldShowInterstitial fromId toId = Some k
  ↔ fromId = interstitialFrom k ∧ toId = interstitialTo k.
Proof.
  unfold shouldShowInterstitial. split.
  - repeat match goal with
           | |- context [String.eqb ?a ?b] => destruct (String.eqb_spec a b); simpl
           end; intros [= <-]; subst; done.
  - intros [-> ->]. by destruct k.
Qed.

Lemma truthy_interstitialFrom (k : InterstitialType) :
  truthy (Some (interstitialFrom k)) = true.
Proof. by destruct k. Qed.

Lemma truthy_interstitialTo (k : InterstitialType) :
  truthy (Some (interstitialTo k)) = true.
Proof. by destruct k. Qed.

Section Navigation.
Context {U : QuizUtils} {B : JsBuiltins}.
Variable config : QuizConfig.
Variable env : Env.

Lemma settle_nil (w : World) : timers w = [] → settle config env w = w.
Proof. intros Hts. unfold settle. by rewrite Hts. Qed.

Lemma settle_one (w : World) (t : Timer) :
  timers w = [t] → settle config env w = step config env (Fire 0) w.
Proof. intros Hts. unfold settle. by rewrite Hts. Qed.

(** With a question on screen the completion effect stays idle. *)
Lemma completionEffect_current (w : World) (q : string) :
  currentQuestionId (state w) = Some q → completionEffect config env w = w.
Proof.
  intros Hcur. apply completionEffect_idle. unfold completionCondition.
  rewrite Hcur. rewrite (bool_decide_eq_false_2 (Some q = None)) by done.
  by rewrite andb_false_r.
Qed.

Lemma completionCondition_current (s : State) (q : string) :
  currentQuestionId s = Some q → completionCondition s = false.
Proof.
  intros Hcur. unfold completionCondition.
  rewrite Hcur, (bool_decide_eq_false_2 (Some q = None)) by done.
  by rewrite andb_false_r.
Qed.

Lemma fire_head (w : World) (t : Timer) (ts : list Timer) :
  timers w = t :: ts →
  fire 0 w = mkWorld (runCallback (callback t) (state w)) ts (externals w).
Proof. intros Hts. unfold fire. by rewrite Hts. Qed.

(** A handler that answers at once. *)
Lemma gated_immediate (w : World) :
  timers w = [] →
  settle config env (completionEffect config env w) = completionEffect config env w.
Proof. intros Hts. apply settle_nil. by rewrite timers_completionEffect. Qed.

(** A handler that updates the state and schedules one callback, which
    then runs. *)
Lemma gated_transition (w : World) (f : State → State) (cb : Callback) (ms : nat) :
  timers w = [] →
  completionCondition (f (state w)) = false →
  settle config env (completionEffect config env (setTimeout cb ms (withState f w)))
  = completionEffect config env
      (mkWorld (runCallback cb (f (state w))) [] (externals w)).
Proof.
  intros Hts Hcond. rewrite completionEffect_idle by done.
  erewrite settle_one by (simpl; rewrite Hts; reflexivity).
  unfold step. erewrite fire_head by (simpl; rewrite Hts; reflexivity). done.
Qed.

(** C5. Let [k] be the interstitial bound to the transition from
    [fromId] to [toId], and let it be on screen ([stage] and
    [currentInterstitial] both say [k]) with nothing pending and no
    interstitial transition in flight.  [handleInterstitialContinue]
    then raises the in-flight flag and schedules one 500 ms callback,
    and once that has run the stage is the question stage, the current
    question is [toId], the history has grown by exactly the entry
    [toId], the interstitial is cleared and nothing is pending. *)
Theorem exitInterstitialForward_lands_on_bound_question
    (w : World) (fromId toId : string) (k : InterstitialType) :
  shouldShowInterstitial fromId toId = Some k →
  stage (state w) = StInterstitialOf k →
  currentInterstitial (state w) = Some k →
  isInterstitialTransitioning (state w) = false →
  timers w = [] →
  let w1 := step config env (Dispatch InterstitialContinue) w in
  let w2 := gatedStep config env InterstitialContinue w in
  (isInterstitialTransitioning (state w1) = true
   ∧ timers w1 = [mkTimer 500 (InterstitialContinueCb (Some toId))]
   ∧ questionHistory (state w1) = questionHistory (state w)
   ∧ currentQuestionId (state w1) = currentQuestionId (state w))
  ∧ stage (state w2) = StQuestions
  ∧ currentQuestionId (state w2) = Some toId
  ∧ questionHistory (state w2) = questionHistory (state w) ++ [toId]
  ∧ currentInterstitial (state w2) = None
  ∧ isInterstitialTransitioning (state w2) = false
  ∧ timers w2 = []
  ∧ externals w2 = externals w.
Proof.
  intros Hbind Hstage Hci Hit Hts w1 w2.
  apply shouldShowInterstitial_Some in Hbind as [-> ->].
  assert (completionCondition (state w) = false) as Hidle.
  { unfold completionCondition. rewrite Hstage. done. }
  assert (handleInterstitialContinue w
          = setTimeout (InterstitialContinueCb (Some (interstitialTo k))) 500
              (withState (setIsInterstitialTransitioning true) w)) as Hhandle.
  { unfold handleInterstitialContinue. rewrite Hci, Hit. by destruct k. }
  subst w1 w2. unfold gatedStep, step, handle. rewrite Hhandle.
  rewrite gated_transition by done.
  rewrite (completionEffect_idle _ _ (setTimeout _ _ _)) by done.
  cbn [runCallback]. rewrite truthy_interstitialTo.
  erewrite completionEffect_current by reflexivity.
  cbn. by rewrite Hts.
Qed.

(** C4, as the code has it.  Let [k] be the interstitial bound to the
    transition from [x] to [toId], let [x] be the current question with
    [toId] the resolver's answer, nothing pending and no interstitial
    transition in flight.  [handleNext] then leads, after its 300 ms
    callback, to the interstitial [k] with the history untouched.  From
    there [handlePrevious] first looks at the history: with more than
    one entry it goes through [handleInterstitialBack] and, after its
    500 ms callback, the stage is the question stage, the current
    question is [x], the interstitial is cleared and the history is the
    same list; with at most one entry it returns at once and nothing
    changes. *)
Theorem retreat_from_interstitial
    (w : World) (x toId : string) (k : InterstitialType) :
  shouldShowInterstitial x toId = Some k →
  currentQuestionId (state w) = Some x →
  getNextQuestionId x (ledger w) (questions config) = Some toId →
  isInterstitialTransitioning (state w) = false →
  timers w = [] →
  let w1 := gatedStep config env Next w in
  let w2 := gatedStep config env Previous w1 in
  (stage (state w1) = StInterstitialOf k
   ∧ currentInterstitial (state w1) = Some k
   ∧ currentQuestionId (state w1) = Some x
   ∧ questionHistory (state w1) = questionHistory (state w)
   ∧ timers w1 = [])
  ∧ ((1 < length (questionHistory (state w)))%nat →
     stage (state w2) = StQuestions
     ∧ currentQuestionId (state w2) = Some x
     ∧ currentInterstitial (state w2) = None
     ∧ questionHistory (state w2) = questionHistory (state w1)
     ∧ timers w2 = [])
  ∧ ((length (questionHistory (state w)) ≤ 1)%nat → w2 = w1).
Proof.
  intros Hbind Hcur Hnext Hit Hts w1 w2.
  pose proof Hbind as Hbind'.
  apply shouldShowInterstitial_Some in Hbind' as [-> ->].
  assert (handleNext config w
          = setTimeout (ShowInterstitialCb k) 300
              (withState (setIsTransitioning true) w)) as Hhandle.
  { unfold handleNext. unfold ledger in Hnext.
    rewrite Hcur, Hnext, truthy_interstitialFrom, truthy_interstitialTo, Hbind.
    done. }
  assert (w1 = mkWorld
                 (runCallback (ShowInterstitialCb k)
                    (setIsTransitioning true (state w)))
                 [] (externals w)) as Hw1.
  { subst w1. unfold gatedStep, step, handle. rewrite Hhandle.
    rewrite gated_transition;
      [| done | by eapply completionCondition_current].
    by erewrite completionEffect_current. }
  assert (completionEffect config env w1 = w1) as Hidle1.
  { eapply completionEffect_current. by rewrite Hw1. }
  split; [|split].
  - by rewrite Hw1.
  - intros Hlen. subst w2.
    assert (handlePrevious w1
            = setTimeout (InterstitialBackCb (Some (interstitialFrom k))) 500
                (withState (setIsInterstitialTransitioning true) w1)) as Hback.
    { unfold handlePrevious, handleInterstitialBack. rewrite Hw1. cbn.
      destruct (Z.leb_spec (Z.of_nat (length (questionHistory (state w)))) 1);
        [lia|].
      rewrite Hit. by destruct k. }
    unfold gatedStep, step, handle. rewrite Hback.
    rewrite gated_transition;
      [| by rewrite Hw1 | eapply completionCondition_current; by rewrite Hw1].
    cbn [runCallback]. rewrite truthy_interstitialFrom.
    erewrite completionEffect_current by reflexivity.
    rewrite Hw1. done.
  - intros Hlen. subst w2.
    assert (handlePrevious w1 = w1) as Hdrop.
    { unfold handlePrevious. rewrite Hw1. cbn.
      destruct (Z.leb_spec (Z.of_nat (length (questionHistory (state w)))) 1);
        [done|lia]. }
    unfold gatedStep, step, handle. rewrite Hdrop, Hidle1.
    apply settle_nil. by rewrite Hw1.
Qed.

(** The interstitial handlers are gated by their in-flight flag. *)
Lemma interstitial_intents_dropped_in_flight (w : World) :
  isInterstitialTransitioning (state w) = true →
  handleInterstitialContinue w = w ∧ handleInterstitialBack w = w.
Proof.
  intros Hit. unfold handleInterstitialContinue, handleInterstitialBack.
  rewrite Hit. by destruct (currentInterstitial (state w)).
Qed.

(** [handleNext] and [handlePrevious] raise [isTransitioning] and
    never read it. *)
Lemma question_intents_ignore_isTransitioning (b : bool) (w : World) :
  timers (handleNext config (withState (setIsTransitioning b) w))
  = timers (handleNext config w)
  ∧ timers (handlePrevious (withState (setIsTransitioning b) w))
    = timers (handlePrevious w).
Proof.
  unfold handleNext, handlePrevious, handleInterstitialBack. cbn.
  split; repeat case_match; done.
Qed.

End Navigation.

Lemma exitInterstitialForward_lands_on_bound_question_witness :
  let w := @runGated catalogUtils browserBuiltins sixQuestions embedded
             [Answer (mkAnswer "q1" "y"); Next] (initialWorld sixQuestions) in
  let w2 := @gatedStep catalogUtils browserBuiltins sixQuestions embedded
              InterstitialContinue w in
  stage (state w) = StInterstitialOf IA
  ∧ stage (state w2) = StQuestions
  ∧ currentQuestionId (state w2) = Some "q2"
  ∧ questionHistory (state w2) = ["q1"; "q2"]
  ∧ currentInterstitial (state w2) = None.
Proof.
  intros w w2.
  destruct (@exitInterstitialForward_lands_on_bound_question
              catalogUtils browserBuiltins sixQuestions embedded w "q1" "q2" IA)
    as (_ & Hstage & Hcur & Hhist & Hci & _);
    [reflexivity | reflexivity | reflexivity | reflexivity | reflexivity |].
  split_and!; [reflexivity | exact Hstage | exact Hcur | exact Hhist | exact Hci].
Defined.

Lemma retreat_from_interstitial_witness :
  let w := @runGated catalogUtils browserBuiltins sevenQuestions embedded
             [Answer (mkAnswer "q0" "y"); Next; Answer (mkAnswer "q1" "n")]
             (initialWorld sevenQuestions) in
  let w1 := @gatedStep catalogUtils browserBuiltins sevenQuestions embedded Next w in
  let w2 := @gatedStep catalogUtils browserBuiltins sevenQuestions embedded Previous w1 in
  questionHistory (state w) = ["q0"; "q1"]
  ∧ stage (state w1) = StInterstitialOf IA
  ∧ stage (state w2) = StQuestions
  ∧ currentQuestionId (state w2) = Some "q1"
  ∧ currentInterstitial (state w2) = None
  ∧ questionHistory (state w2) = questionHistory (state w1).
Proof.
  intros w w1 w2.
  destruct (@retreat_from_interstitial
              catalogUtils browserBuiltins sevenQuestions embedded w "q1" "q2" IA)
    as ((Hentered & _) & Hback & _);
    [reflexivity | reflexivity | reflexivity | reflexivity | reflexivity |].
  destruct Hback as (Hstage & Hcur & Hci & Hhist & _); [vm_compute; lia|].
  split_and!; [reflexivity | exact Hentered | exact Hstage | exact Hcur
               | exact Hci | exact Hhist].
Defined.

(** C4 as stated fails for the interstitial entered from the first
    question of the session: the history has one entry, [handlePrevious]
    returns before it looks at the interstitial, and the interstitial
    stays on screen. *)
Lemma retreat_from_first_interstitial_is_dropped :
  let entered := @runGated catalogUtils browserBuiltins sixQuestions embedded
                   [Answer (mkAnswer "q1" "y"); Next] (initialWorld sixQuestions) in
  let after := @gatedStep catalogUtils browserBuiltins sixQuestions embedded
                 Previous entered in
  shouldShowInterstitial "q1" "q2" = Some IA
  ∧ stage (state entered) = StInterstitialOf IA
  ∧ currentQuestionId (state entered) = Some "q1"
  ∧ after = entered
  ∧ ¬ (stage (state after) = StQuestions
       ∧ currentQuestionId (state after) = Some "q1"
       ∧ currentInterstitial (state after) = None
       ∧ questionHistory (state after) = questionHistory (state entered)).
Proof.
  intros entered after.
  split_and!; [reflexivity | reflexivity | reflexivity | reflexivity |].
  intros (Hstage & _). vm_compute in Hstage. discriminate Hstage.
Qed.

(** C2 on the code.  On the two-question catalog the first [handleNext]
    raises [isTransitioning] and schedules its callback.  A second
    [handleNext] in that state is not dropped: it schedules a second
    callback, and when both have run the history has grown twice.  A
    [handlePrevious] in flight is not dropped either: it schedules its
    own callback, and a [handleNext] in flight on the last question
    clears the current question at once. *)
Theorem question_intents_in_flight_are_not_dropped :
  let step' := @step catalogUtils browserBuiltins twoQuestions embedded in
  let run' := @run catalogUtils browserBuiltins twoQuestions embedded in
  let w1 := step' (Dispatch Next) (initialWorld twoQuestions) in
  let w2 := step' (Dispatch Next) w1 in
  let v0 := run' [Dispatch Next; Fire 0] (initialWorld twoQuestions) in
  let v1 := step' (Dispatch Previous) v0 in
  (isTransitioning (state w1) = true
   ∧ timers w1 = [mkTimer 50 (NextQuestionCb "q8")]
   ∧ questionHistory (state (step' (Fire 0) w1)) = ["q7"; "q8"])
  ∧ (w2 ≠ w1
     ∧ timers w2 = [mkTimer 50 (NextQuestionCb "q8"); mkTimer 50 (NextQuestionCb "q8")]
     ∧ questionHistory (state (run' [Fire 0; Fire 0] w2)) = ["q7"; "q8"; "q8"])
  ∧ (isTransitioning (state v1) = true
     ∧ timers v1 = [mkTimer 50 (PreviousCb (Some "q7") ["q7"])]
     ∧ step' (Dispatch Previous) v1 ≠ v1
     ∧ step' (Dispatch Next) v1 ≠ v1
     ∧ currentQuestionId (state v1) = Some "q8"
     ∧ currentQuestionId (state (step' (Dispatch Next) v1)) = None).
Proof.
  intros step' run' w1 w2 v0 v1.
  split_and!; try reflexivity.
  - intros Heq. apply (f_equal (λ w, length (timers w))) in Heq.
    vm_compute in Heq. discriminate Heq.
  - intros Heq. apply (f_equal (λ w, length (timers w))) in Heq.
    vm_compute in Heq. discriminate Heq.
  - intros Heq. apply (f_equal (λ w, currentQuestionId (state w))) in Heq.
    vm_compute in Heq. discriminate Heq.
Qed.

(** ** The answer summary *)

Lemma remove_dups_id (l : list string) : NoDup l → remove_dups l = l.
Proof.
  induction 1 as [|x l Hnin Hnd IH]; simpl; [done|].
  rewrite IH. by destruct (decide_rel elem_of x l).
Qed.

Section Summary.
Context {U : QuizUtils} {B : JsBuiltins}.
Variable config : QuizConfig.

Lemma lookup_assignProperty_eq (k v : string) (m : gmap string string) :
  k ≠ "__proto__" → assignProperty k v m !! k = Some v.
Proof.
  intros Hk. unfold assignProperty. apply String.eqb_neq in Hk. rewrite Hk.
  apply lookup_insert_eq.
Qed.

Lemma lookup_assignProperty_ne (k j v : string) (m : gmap string string) :
  k ≠ j → assignProperty k v m !! j = m !! j.
Proof.
  intros Hkj. unfold assignProperty. destruct (String.eqb k "__proto__"); [done|].
  by apply lookup_insert_ne.
Qed.

Lemma dom_assignProperty (k v : string) (m : gmap string string) :
  dom (assignProperty k v m)
  = list_to_set (filter (λ t, t ≠ "__proto__") [k]) ∪ dom m.
Proof.
  unfold assignProperty.
  destruct (String.eqb_spec k "__proto__") as [->|Hk].
  - rewrite filter_cons_False by (intros Hne; by apply Hne).
    rewrite filter_nil. simpl. by rewrite (left_id_L ∅ (∪)).
  - rewrite filter_cons_True by done.
    rewrite filter_nil, dom_insert_L. simpl. by rewrite (right_id_L ∅ (∪)).
Qed.

Lemma humanReadableMap_snoc (l : list QuizAnswer) (a : QuizAnswer) :
  humanReadableMap config (l ++ [a])
  = assignProperty (promptOf config a) (labelOf config a) (humanReadableMap config l).
Proof. unfold humanReadableMap. by rewrite foldl_snoc. Qed.

Lemma dom_humanReadableMap (l : list QuizAnswer) :
  dom (humanReadableMap config l) = list_to_set (ownPrompts config l).
Proof.
  unfold ownPrompts. induction l as [|a l IH] using rev_ind; [done|].
  rewrite humanReadableMap_snoc, dom_assignProperty, IH, fmap_app, filter_app. simpl.
  rewrite list_to_set_app_L. apply (comm_L (∪)).
Qed.

Lemma humanReadableMap_keys (l : list QuizAnswer) (t : string) :
  is_Some (humanReadableMap config l !! t)
  ↔ t ≠ "__proto__" ∧ ∃ a, a ∈ l ∧ promptOf config a = t.
Proof.
  rewrite <- elem_of_dom, dom_humanReadableMap, elem_of_list_to_set.
  unfold ownPrompts. rewrite list_elem_of_filter, list_elem_of_fmap.
  split; intros (Ht & a & Ha & Ha'); (split; [done|]); exists a; by split.
Qed.

Lemma size_humanReadableMap (l : list QuizAnswer) :
  size (humanReadableMap config l) = length (remove_dups (ownPrompts config l)).
Proof.
  rewrite <- size_dom, dom_humanReadableMap.
  rewrite <- (size_list_to_set (C := gset string)) by apply NoDup_remove_dups.
  f_equal. apply set_eq. intros t.
  by rewrite !elem_of_list_to_set, elem_of_remove_dups.
Qed.

(** The last ledger entry with a given prompt text decides its label. *)
Lemma humanReadableMap_last_wins (l1 l2 : list QuizAnswer) (a : QuizAnswer) :
  promptOf config a ≠ "__proto__" →
  (∀ b, b ∈ l2 → promptOf config b ≠ promptOf config a) →
  humanReadableMap config (l1 ++ a :: l2) !! promptOf config a = Some (labelOf config a).
Proof.
  intros Hown. induction l2 as [|b l2 IH] using rev_ind; intros Hlater.
  - rewrite humanReadableMap_snoc. by apply lookup_assignProperty_eq.
  - rewrite app_comm_cons, app_assoc, humanReadableMap_snoc.
    rewrite lookup_assignProperty_ne
      by (apply Hlater, elem_of_app; right; apply list_elem_of_here).
    apply IH. intros c Hc. apply Hlater, elem_of_app. by left.
Qed.

Lemma prompts_NoDup (l : list QuizAnswer) :
  NoDup (questionId <$> l) →
  (∀ a b, a ∈ l → b ∈ l → promptOf config a = promptOf config b →
          questionId a = questionId b) →
  NoDup (promptOf config <$> l).
Proof.
  intros Hids Hinj.
  change (promptOf config) with ((λ i, getQuestionText i config) ∘ questionId).
  rewrite list_fmap_compose. apply NoDup_fmap_2_strong; [|done].
  intros i j [a [-> Ha]]%list_elem_of_fmap [b [-> Hb]]%list_elem_of_fmap Heq.
  by apply Hinj.
Qed.

Lemma ownPrompts_all (l : list QuizAnswer) :
  (∀ a, a ∈ l → promptOf config a ≠ "__proto__") →
  ownPrompts config l = promptOf config <$> l.
Proof.
  unfold ownPrompts. induction l as [|a l IH]; intros Hown; [done|].
  rewrite fmap_cons, filter_cons_True by (apply Hown, list_elem_of_here).
  rewrite IH; [done|]. intros b Hb. by apply Hown, list_elem_of_further.
Qed.

Lemma humanReadableMap_distinct_prompts (l : list QuizAnswer) :
  NoDup (promptOf config <$> l) →
  (∀ a, a ∈ l → promptOf config a ≠ "__proto__") →
  size (humanReadableMap config l) = length l
  ∧ ∀ a, a ∈ l → humanReadableMap config l !! promptOf config a = Some (labelOf config a).
Proof.
  intros Hnd Hown. split.
  - rewrite <- size_dom, dom_humanReadableMap, ownPrompts_all by done.
    rewrite size_list_to_set by done. apply length_fmap.
  - intros a Ha. pose proof (Hown a Ha) as Hnp.
    apply list_elem_of_split in Ha as (l1 & l2 & ->).
    apply humanReadableMap_last_wins; [done|]. intros b Hb Heq.
    rewrite fmap_app, fmap_cons in Hnd.
    apply NoDup_app in Hnd as (_ & _ & Hnd). apply NoDup_cons in Hnd as [Hnin _].
    apply Hnin. rewrite <- Heq. apply list_elem_of_fmap. eauto.
Qed.

(** A re-answered question shows its last recorded value. *)
Lemma humanReadableMap_after_recordAnswer (a : QuizAnswer) (l : list QuizAnswer) :
  NoDup (promptOf config <$> recordAnswer a l) →
  (∀ b, b ∈ recordAnswer a l → promptOf config b ≠ "__proto__") →
  humanReadableMap config (recordAnswer a l) !! promptOf config a
  = Some (labelOf config a).
Proof.
  intros Hnd Hown. apply humanReadableMap_distinct_prompts; [done | done |].
  destruct (decide (questionId a ∈ questionId <$> l)) as [Hin|Hnin].
  - destruct (recordAnswer_found a l Hin) as (i & old & Hi & _ & _ & ->).
    apply list_elem_of_lookup. exists i. apply list_lookup_insert_eq.
    by eapply lookup_lt_Some.
  - rewrite recordAnswer_fresh by done.
    apply elem_of_app. right. apply list_elem_of_here.
Qed.

(** C7, as the code has it.  The summary sent with the webhook is
    [humanReadableMap] of the ledger, an object keyed by prompt text.
    Its own properties are the prompt texts of the answered questions
    other than ["__proto__"], which an assignment to the object never
    creates: one entry per distinct such prompt text, carrying the label
    of the last ledger entry with that prompt text.  When the ledger
    holds one entry per question, distinct answered questions have
    distinct prompt texts and none of them is ["__proto__"], this is one
    entry per question id, each prompt text mapped to the label of that
    question's recorded value. *)
Theorem humanReadableMap_by_prompt (l : list QuizAnswer) :
  let m := humanReadableMap config l in
  ((∀ e, e ∈ webhookCalls config l →
      ∃ url, e = SendEmailGateWebhook url "Spanishlearner@fallsale.com"
                   (payloadOverride config l))
   ∧ score (payloadOverride config l) = m)
  ∧ (∀ t, is_Some (m !! t)
          ↔ t ≠ "__proto__" ∧ ∃ a, a ∈ l ∧ promptOf config a = t)
  ∧ size m = length (remove_dups (ownPrompts config l))
  ∧ (∀ l1 a l2, l = l1 ++ a :: l2 →
       promptOf config a ≠ "__proto__" →
       (∀ b, b ∈ l2 → promptOf config b ≠ promptOf config a) →
       m !! promptOf config a = Some (labelOf config a))
  ∧ (NoDup (questionId <$> l) →
     (∀ a b, a ∈ l → b ∈ l → promptOf config a = promptOf config b →
             questionId a = questionId b) →
     (∀ a, a ∈ l → promptOf config a ≠ "__proto__") →
     size m = length l
     ∧ size m = length (remove_dups (questionId <$> l))
     ∧ ∀ a, a ∈ l → m !! promptOf config a = Some (labelOf config a)).
Proof.
  intros m. subst m. split; [split|split_and!].
  - unfold webhookCalls. intros e He.
    destruct (webhookUrl config) as [url|]; [|by inversion He].
    destruct (truthy (Some url) && negb (trim url =? "")%string); [|by inversion He].
    apply list_elem_of_singleton in He as ->. by exists url.
  - done.
  - apply humanReadableMap_keys.
  - apply size_humanReadableMap.
  - intros l1 a l2 -> Hown Hlater. by apply humanReadableMap_last_wins.
  - intros Hids Hinj Hown.
    destruct (humanReadableMap_distinct_prompts l (prompts_NoDup l Hids Hinj) Hown)
      as [Hsize Hlabels].
    split_and!; [done | | done].
    rewrite Hsize, <- (length_fmap questionId l).
    by rewrite remove_dups_id.
Qed.

End Summary.

Lemma humanReadableMap_by_prompt_witness :
  let l := ledger (@runGated catalogUtils browserBuiltins sixQuestions embedded
                     [Answer (mkAnswer "q1" "y"); Answer (mkAnswer "q2" "y");
                      Answer (mkAnswer "q1" "n")]
                     (initialWorld sixQuestions)) in
  let m := @humanReadableMap catalogUtils sixQuestions l in
  l = [mkAnswer "q1" "n"; mkAnswer "q2" "y"]
  ∧ size m = 2%nat
  ∧ m !! "First" = Some "No"
  ∧ m !! "Second" = Some "Yes".
Proof.
  intros l m.
  destruct (@humanReadableMap_by_prompt catalogUtils browserBuiltins sixQuestions l)
    as (_ & _ & _ & _ & Hdistinct).
  destruct Hdistinct as (Hsize & _ & Hlabels).
  - by_evaluation.
  - intros a b Ha Hb. vm_compute in Ha, Hb.
    repeat (apply elem_of_cons in Ha as [->|Ha]);
      repeat (apply elem_of_cons in Hb as [->|Hb]);
      try (by inversion Ha); try (by inversion Hb);
      vm_compute; congruence.
  - intros a Ha. vm_compute in Ha.
    repeat (apply elem_of_cons in Ha as [->|Ha]; [vm_compute; discriminate|]).
    inversion Ha.
  - split_and!; [reflexivity | exact Hsize | |].
    + apply (Hlabels (mkAnswer "q1" "n")). vm_compute. apply list_elem_of_here.
    + apply (Hlabels (mkAnswer "q2" "y")). vm_compute.
      apply list_elem_of_further, list_elem_of_here.
Defined.

(** C7 as stated fails when two answered questions share their prompt
    text: the ledger holds two question ids, the summary one entry, and
    that entry carries the label chosen for the later question. *)
Lemma summary_merges_questions_with_one_prompt :
  let l := ledger (@runGated catalogUtils browserBuiltins samePrompt embedded
                     [Answer (mkAnswer "q7" "y"); Answer (mkAnswer "q8" "n")]
                     (initialWorld samePrompt)) in
  let m := @humanReadableMap catalogUtils samePrompt l in
  questionId <$> l = ["q7"; "q8"]
  ∧ NoDup (questionId <$> l)
  ∧ size m ≠ length (remove_dups (questionId <$> l))
  ∧ size m = 1%nat
  ∧ @getOptionText catalogUtils "q7" "y" samePrompt = "Yes"
  ∧ m !! @getQuestionText catalogUtils "q7" samePrompt = Some "No".
Proof.
  intros l m. split_and!; try reflexivity.
  - by_evaluation.
  - vm_compute. discriminate.
Qed.

(** A prompt text of ["__proto__"] leaves no entry in the summary. *)
Lemma summary_has_no_proto_entry :
  let l := ledger (@runGated catalogUtils browserBuiltins protoPrompt embedded
                     [Answer (mkAnswer "q7" "y"); Answer (mkAnswer "q8" "n")]
                     (initialWorld protoPrompt)) in
  let m := @humanReadableMap catalogUtils protoPrompt l in
  length l = 2%nat ∧ size m = 1%nat ∧ m !! "__proto__" = None
  ∧ m !! "Eighth" = Some "No".
Proof. intros l m. split_and!; reflexivity. Qed.

(** ** The history *)

Lemma noAdjacentDuplicates_snoc (l : list string) (x : string) :
  noAdjacentDuplicates l → last l ≠ Some x → noAdjacentDuplicates (l ++ [x]).
Proof.
  induction l as [|a l IH]; intros Hnad Hlast; [done|].
  destruct Hnad as [Hhead Htail]. simpl. split.
  - destruct l as [|b l]; simpl; [|done]. intros ->. by apply Hlast.
  - apply IH; [done|]. destruct l as [|b l]; [done|]. exact Hlast.
Qed.

Lemma noAdjacentDuplicates_removelast (l : list string) :
  noAdjacentDuplicates l → noAdjacentDuplicates (removelast l).
Proof.
  induction l as [|a l IH]; intros Hnad; [done|].
  destruct Hnad as [Hhead Htail]. simpl. destruct l as [|b l]; [done|].
  split; [|by apply IH]. simpl in *. by destruct l.
Qed.

Lemma removelast_not_nil (l : list string) :
  (1 < length l)%nat → removelast l ≠ [].
Proof. destruct l as [|a [|b l]]; simpl; [lia | lia | done]. Qed.

Lemma interstitialFrom_not_To (k : InterstitialType) :
  interstitialFrom k ≠ interstitialTo k.
Proof. by destruct k. Qed.

#[local] Arguments truthy : simpl never.

Section History.
Context {U : QuizUtils} {B : JsBuiltins}.
Variable config : QuizConfig.
Variable env : Env.
Hypothesis resolver_moves_on : resolverMovesOn config.

Lemma completionCondition_after_effect (w : World) :
  completionCondition (state (completionEffect config env w)) = false.
Proof.
  destruct (state_completionEffect_cases config env w) as [Heq|[Hcond Heq]];
    rewrite Heq.
  - destruct (completionCondition (state w)) eqn:Hcond; [|done].
    rewrite state_completionEffect in Heq by done.
    apply (f_equal hasSentCompletionData) in Heq. simpl in Heq.
    apply completionCondition_true in Hcond as (_ & _ & Hlatch). congruence.
  - done.
Qed.

Lemma historyShape_completionEffect (w : World) :
  historyShape config (state w) →
  historyShape config (state (completionEffect config env w)).
Proof.
  destruct (state_completionEffect_cases config env w) as [->|[_ ->]]; done.
Qed.

Lemma navigationInvariant_effect (w : World) :
  timers w = [] → historyShape config (state w) →
  navigationInvariant config (completionEffect config env w).
Proof.
  intros Hts Hshape. split_and!.
  - by rewrite timers_completionEffect.
  - apply completionCondition_after_effect.
  - by apply historyShape_completionEffect.
Qed.

Lemma navigationInvariant_initial : navigationInvariant config (initialWorld config).
Proof.
  split; [done|split].
  { unfold completionCondition. simpl. by rewrite andb_false_r. }
  unfold historyShape, initialWorld, initialState. simpl.
  destruct (questions config) as [|q qs]; split_and!; done.
Qed.

(** Every handler either answers at once or schedules exactly one
    callback, and the history keeps its shape once that has run. *)
Lemma handle_cases (i : Intent) (w : World) :
  navigationInvariant config w →
  (if isAnswer i then currentInterstitial (state w) = None else True) →
  (timers (handle config i w) = [] ∧ historyShape config (state (handle config i w)))
  ∨ (∃ f cb ms,
       handle config i w = setTimeout cb ms (withState f w)
       ∧ completionCondition (f (state w)) = false
       ∧ historyShape config (runCallback cb (f (state w)))).
Proof.
  intros (Hts & Hidle & Hshape) Hanswer.
  pose proof Hshape as (Hit & Hnad & Hlast & Hbind & Hne).
  destruct i as [a| | |]; cbn [handle isAnswer] in *.
  - (* an answer *)
    left. split; [done|]. unfold historyShape. simpl.
    split_and!; try done. intros k Hk. congruence.
  - (* next *)
    unfold handleNext.
    case_eq (currentQuestionId (state w)); [intros q Hcur|by left].
    case_eq (truthy (Some q)); intros Hq; cbn [negb]; [|by left].
    assert (∀ k, currentInterstitial (state w) = Some k →
              q = interstitialFrom k
              ∧ getNextQuestionId q (answers (participant (state w))) (questions config)
                = Some (interstitialTo k)) as Hon.
    { intros k Hk. destruct (Hbind k Hk) as [Hfrom Hnext].
      rewrite Hcur in Hfrom. injection Hfrom as ->. done. }
    case_eq (getNextQuestionId q (answers (participant (state w))) (questions config));
      [intros n Hnext|intros Hnext].
    + case_eq (truthy (Some n)); intros Hn.
      * case_eq (shouldShowInterstitial q n); [intros k Hshow|intros Hshow].
        -- right. exists (setIsTransitioning true), (ShowInterstitialCb k), 300%nat.
           split; [done|split; [by eapply completionCondition_current|]].
           apply shouldShowInterstitial_Some in Hshow as [-> ->].
           unfold historyShape. simpl. split_and!; try done.
           intros k' [= <-]. done.
        -- right. exists (setIsTransitioning true), (NextQuestionCb n), 50%nat.
           split; [done|split; [by eapply completionCondition_current|]].
           unfold historyShape. simpl. split_and!.
           ++ done.
           ++ apply noAdjacentDuplicates_snoc; [done|].
              rewrite (Hlast q Hcur). intros [= ->].
              by apply (resolver_moves_on n (answers (participant (state w)))).
           ++ intros q' [= <-]. apply last_snoc.
           ++ intros k Hk. destruct (Hon k Hk) as [-> Hto].
              rewrite Hnext in Hto. injection Hto as ->.
              assert (shouldShowInterstitial (interstitialFrom k) (interstitialTo k)
                      = Some k) as Hk' by by apply shouldShowInterstitial_Some.
              congruence.
           ++ intros _. by destruct (questionHistory (state w)).
      * left. split; [done|]. unfold historyShape. simpl. split_and!; try done.
        intros k Hk. destruct (Hon k Hk) as [_ Hto].
        rewrite Hnext in Hto. injection Hto as ->.
        by rewrite truthy_interstitialTo in Hn.
    + left. split; [done|]. unfold historyShape. simpl. split_and!; try done.
      intros k Hk. destruct (Hon k Hk) as [_ Hto]. congruence.
  - (* previous *)
    unfold handlePrevious.
    destruct (Z.leb_spec (Z.of_nat (length (questionHistory (state w)))) 1) as [Hlen|Hlen];
      [left; by split|].
    case_eq (currentInterstitial (state w)); [intros k Hk|intros Hk].
    + unfold handleInterstitialBack. rewrite Hk, Hit. right.
      exists (setIsInterstitialTransitioning true),
             (InterstitialBackCb (Some (interstitialFrom k))), 500%nat.
      split; [by destruct k|split; [done|]].
      cbn [runCallback]. rewrite truthy_interstitialFrom.
      destruct (Hbind k Hk) as [Hcur _].
      unfold historyShape. simpl. split_and!; try done.
      intros q [= <-]. by apply Hlast.
    + right.
      exists (setIsTransitioning true),
             (PreviousCb (lastElement (pop (questionHistory (state w))))
                (pop (questionHistory (state w)))), 50%nat.
      split; [done|split; [done|]].
      unfold historyShape, pop, lastElement. simpl. split_and!; try done.
      * by apply noAdjacentDuplicates_removelast.
      * intros k Hk'. congruence.
      * intros _. apply removelast_not_nil. lia.
  - (* continue from an interstitial *)
    unfold handleInterstitialContinue.
    case_eq (currentInterstitial (state w)); [intros k Hk|by left].
    rewrite Hit. right.
    exists (setIsInterstitialTransitioning true),
           (InterstitialContinueCb (Some (interstitialTo k))), 500%nat.
    split; [by destruct k|split; [done|]].
    cbn [runCallback]. rewrite truthy_interstitialTo.
    destruct (Hbind k Hk) as [Hcur _].
    unfold historyShape. simpl. split_and!; try done.
    + apply noAdjacentDuplicates_snoc; [done|].
      rewrite (Hlast _ Hcur). intros [= Heq]. by apply (interstitialFrom_not_To k).
    + intros q [= <-]. apply last_snoc.
    + intros _. by destruct (questionHistory (state w)).
Qed.

Lemma gatedStep_invariant (i : Intent) (w : World) :
  navigationInvariant config w →
  (if isAnswer i then currentInterstitial (state w) = None else True) →
  navigationInvariant config (gatedStep config env i w).
Proof.
  intros Hinv Hanswer. pose proof Hinv as (Hts & _).
  unfold gatedStep, step.
  destruct (handle_cases i w Hinv Hanswer)
    as [[Hts' Hshape]|(f & cb & ms & -> & Hidle & Hshape)].
  - rewrite gated_immediate by done. by apply navigationInvariant_effect.
  - rewrite gated_transition by done. by apply navigationInvariant_effect.
Qed.

Lemma runGated_invariant (intents : list Intent) (w : World) :
  navigationInvariant config w →
  answersOnQuestionCards config env intents w →
  navigationInvariant config (runGated config env intents w).
Proof.
  revert w. induction intents as [|i intents IH]; intros w Hinv Hcards; [done|].
  destruct Hcards as [Hanswer Hcards].
  unfold runGated in *. simpl. apply IH; [|done].
  apply gatedStep_invariant; [done|]. by destruct i.
Qed.

(** Runs of navigation intents alone have no answer to place. *)
Lemma answersOnQuestionCards_navigation (intents : list Intent) (w : World) :
  Forall (λ i, isAnswer i = false) intents →
  answersOnQuestionCards config env intents w.
Proof.
  intros Hnav. revert w. induction Hnav as [|i intents Hi _ IH]; intros w; [done|].
  split; [by destruct i | apply IH].
Qed.


End History.

(** The linear resolver moves on as long as the catalog ids are unique. *)
Lemma linearNextQuestionId_moves_on (config : QuizConfig) :
  NoDup (id <$> questions config) → @resolverMovesOn catalogUtils config.
Proof.
  intros Hnd q l. simpl. unfold linearNextQuestionId.
  destruct (Z.eqb_spec (findIndex (λ x, String.eqb (id x) q) (questions config)) (-1))
    as [|Hfound]; [done|].
  destruct (findIndex_some _ _ Hfound) as (i & x & -> & Hx & Hid & _).
  apply String.eqb_eq in Hid.
  replace (Z.to_nat (Z.of_nat i + 1)) with (S i) by lia.
  intros Hnext. apply fmap_Some in Hnext as (y & Hy & Hidy).
  assert ((id <$> questions config) !! i = Some q) as Hi
    by by rewrite list_lookup_fmap, Hx, <- Hid.
  assert ((id <$> questions config) !! S i = Some q) as HSi
    by by rewrite list_lookup_fmap, Hy, Hidy.
  pose proof (NoDup_lookup _ _ _ _ Hnd Hi HSi). lia.
Qed.



(** * Further properties of the controller *)

(** ** Gated steps, computed *)

Section GatedSteps.
Context {U : QuizUtils} {B : JsBuiltins}.
Variable config : QuizConfig.
Variable env : Env.

Lemma completionEffect_idempotent (w : World) :
  completionEffect config env (completionEffect config env w)
  = completionEffect config env w.
Proof. apply completionEffect_idle, completionCondition_after_effect. Qed.

Lemma setTimeout_changes (cb : Callback) (ms : nat) (f : State → State) (w : World) :
  setTimeout cb ms (withState f w) ≠ w.
Proof.
  intros Heq. apply (f_equal (λ v, length (timers v))) in Heq.
  simpl in Heq. rewrite length_app in Heq. simpl in Heq. lia.
Qed.

Lemma handleNext_to_question (w : World) (q n : string) :
  currentQuestionId (state w) = Some q → truthy (Some q) = true →
  getNextQuestionId q (ledger w) (questions config) = Some n →
  truthy (Some n) = true → shouldShowInterstitial q n = None →
  handleNext config w
  = setTimeout (NextQuestionCb n) 50 (withState (setIsTransitioning true) w).
Proof.
  intros Hcur Hq Hnext Hn Hshow. unfold handleNext. unfold ledger in Hnext.
  by rewrite Hcur, Hq, Hnext, Hn, Hshow.
Qed.

Lemma handleNext_to_interstitial (w : World) (q n : string) (k : InterstitialType) :
  currentQuestionId (state w) = Some q →
  getNextQuestionId q (ledger w) (questions config) = Some n →
  shouldShowInterstitial q n = Some k →
  handleNext config w
  = setTimeout (ShowInterstitialCb k) 300 (withState (setIsTransitioning true) w).
Proof.
  intros Hcur Hnext Hshow. unfold handleNext. unfold ledger in Hnext.
  pose proof Hshow as Hbind. apply shouldShowInterstitial_Some in Hbind as [-> ->].
  by rewrite Hcur, Hnext, truthy_interstitialFrom, truthy_interstitialTo, Hshow.
Qed.

Lemma handleNext_at_end (w : World) (q : string) :
  currentQuestionId (state w) = Some q → truthy (Some q) = true →
  truthy (getNextQuestionId q (ledger w) (questions config)) = false →
  handleNext config w = withState (setCurrentQuestionId None) w.
Proof.
  intros Hcur Hq Hnext. unfold handleNext. unfold ledger in Hnext.
  rewrite Hcur, Hq. cbn [negb].
  destruct (getNextQuestionId q _ _) as [n|]; [|done]. by rewrite Hnext.
Qed.

Lemma handlePrevious_pop (w : World) :
  (1 < length (questionHistory (state w)))%nat →
  currentInterstitial (state w) = None →
  handlePrevious w
  = setTimeout
      (PreviousCb (lastElement (pop (questionHistory (state w))))
         (pop (questionHistory (state w)))) 50
      (withState (setIsTransitioning true) w).
Proof.
  intros Hlen Hci. unfold handlePrevious. rewrite Hci.
  by destruct (Z.leb_spec (Z.of_nat (length (questionHistory (state w)))) 1); [lia|].
Qed.

Lemma handleInterstitialContinue_go (w : World) (k : InterstitialType) :
  currentInterstitial (state w) = Some k →
  isInterstitialTransitioning (state w) = false →
  handleInterstitialContinue w
  = setTimeout (InterstitialContinueCb (Some (interstitialTo k))) 500
      (withState (setIsInterstitialTransitioning true) w).
Proof.
  intros Hci Hit. unfold handleInterstitialContinue. rewrite Hci, Hit. by destruct k.
Qed.

Lemma handleInterstitialBack_go (w : World) (k : InterstitialType) :
  currentInterstitial (state w) = Some k →
  isInterstitialTransitioning (state w) = false →
  handleInterstitialBack w
  = setTimeout (InterstitialBackCb (Some (interstitialFrom k))) 500
      (withState (setIsInterstitialTransitioning true) w).
Proof.
  intros Hci Hit. unfold handleInterstitialBack. rewrite Hci, Hit. by destruct k.
Qed.

(** A gated step through a handler that schedules a callback, when a
    question is current before and after. *)
Lemma gatedStep_scheduled (i : Intent) (w : World) (f : State → State)
    (cb : Callback) (ms : nat) (q q' : string) :
  timers w = [] →
  handle config i w = setTimeout cb ms (withState f w) →
  currentQuestionId (f (state w)) = Some q →
  currentQuestionId (runCallback cb (f (state w))) = Some q' →
  gatedStep config env i w = mkWorld (runCallback cb (f (state w))) [] (externals w).
Proof.
  intros Hts Hhandle Hcur Hcur'. unfold gatedStep, step. rewrite Hhandle.
  rewrite gated_transition; [| done | by eapply completionCondition_current].
  by erewrite completionEffect_current.
Qed.

(** X1. The interstitial table read forwards and backwards agrees: if
    the transition from [fromId] to [toId] shows interstitial [k], then
    continuing from [k] schedules the move to [toId] and going back from
    [k] schedules the move to [fromId]; the two questions differ, and no
    other pair of questions shows [k]. *)
Theorem interstitial_table_is_consistent
    (w : World) (fromId toId : string) (k : InterstitialType) :
  shouldShowInterstitial fromId toId = Some k →
  currentInterstitial (state w) = Some k →
  isInterstitialTransitioning (state w) = false →
  timers (handleInterstitialContinue w)
  = timers w ++ [mkTimer 500 (InterstitialContinueCb (Some toId))]
  ∧ timers (handleInterstitialBack w)
    = timers w ++ [mkTimer 500 (InterstitialBackCb (Some fromId))]
  ∧ fromId ≠ toId
  ∧ ∀ f t, shouldShowInterstitial f t = Some k → f = fromId ∧ t = toId.
Proof.
  intros Hshow Hci Hit.
  apply shouldShowInterstitial_Some in Hshow as [-> ->].
  rewrite (handleInterstitialContinue_go w k), (handleInterstitialBack_go w k) by done.
  split_and!; [done | done | apply interstitialFrom_not_To |].
  intros f t Hft. by apply shouldShowInterstitial_Some in Hft.
Qed.

(** X2. A second continue while the first is in flight is dropped: two
    [handleInterstitialContinue] calls in a row leave the same world as
    one, whatever the state, so the callback runs once and the history
    grows once. *)
Theorem interstitial_continue_twice_is_once (w : World) :
  step config env (Dispatch InterstitialContinue)
    (step config env (Dispatch InterstitialContinue) w)
  = step config env (Dispatch InterstitialContinue) w
  ∧ run config env [Dispatch InterstitialContinue; Dispatch InterstitialContinue; Fire 0] w
    = run config env [Dispatch InterstitialContinue; Fire 0] w.
Proof.
  assert (step config env (Dispatch InterstitialContinue)
            (step config env (Dispatch InterstitialContinue) w)
          = step config env (Dispatch InterstitialContinue) w) as Hidem.
  { unfold step, handle.
    assert (handleInterstitialContinue
              (completionEffect config env (handleInterstitialContinue w))
            = completionEffect config env (handleInterstitialContinue w)) as ->;
      [|apply completionEffect_idempotent].
    set (w1 := handleInterstitialContinue w).
    assert (currentInterstitial (state w1) = None
            ∨ isInterstitialTransitioning (state w1) = true) as Hgate.
    { subst w1. unfold handleInterstitialContinue.
      destruct (currentInterstitial (state w)) as [k|] eqn:Hci; [|by left].
      destruct (isInterstitialTransitioning (state w)) eqn:Hit; [by right|].
      by right. }
    unfold handleInterstitialContinue at 1.
    destruct (state_completionEffect_cases config env w1) as [->|[_ ->]];
      destruct Hgate as [Hg|Hg]; simpl; rewrite Hg; try done;
      by destruct (currentInterstitial (state w1)). }
  split; [done|]. unfold run. simpl. by rewrite Hidem.
Qed.

(** X3. [handlePrevious] leaves the world as it is exactly when there is
    nothing to go back to ([canGoBack] is false) or an interstitial is on
    screen with its transition already in flight; in every other state
    it schedules a callback. *)
Theorem handlePrevious_noop_iff (w : World) :
  handlePrevious w = w
  ↔ canGoBack (state w) = false
    ∨ (is_Some (currentInterstitial (state w))
       ∧ isInterstitialTransitioning (state w) = true).
Proof.
  unfold handlePrevious, canGoBack.
  destruct (Z.leb_spec (Z.of_nat (length (questionHistory (state w)))) 1) as [Hlen|Hlen].
  - split; [intros _; left; by apply Z.ltb_ge|done].
  - assert ((1 <? Z.of_nat (length (questionHistory (state w)))) = true) as ->
      by by apply Z.ltb_lt.
    destruct (currentInterstitial (state w)) as [k|] eqn:Hci.
    + unfold handleInterstitialBack. rewrite Hci.
      destruct (isInterstitialTransitioning (state w)) eqn:Hit.
      * split; [intros _; right; by split|done].
      * split; [intros Heq; by apply setTimeout_changes in Heq|].
        intros [|[_ ?]]; done.
    + split; [intros Heq; by apply setTimeout_changes in Heq|].
      intros [|[[? ?] _]]; done.
Qed.

(** X4. Going on to a question and back again is a round trip.  From a
    settled world whose current question [q] ends the history, a gated
    [handleNext] to a question [n] with no interstitial in between,
    followed by a gated [handlePrevious], gives back the world it
    started from: the same current question, history, ledger and log. *)
Theorem advance_then_retreat_round_trip (w : World) (q n : string) :
  timers w = [] →
  isTransitioning (state w) = false →
  currentInterstitial (state w) = None →
  currentQuestionId (state w) = Some q →
  truthy (Some q) = true →
  last (questionHistory (state w)) = Some q →
  getNextQuestionId q (ledger w) (questions config) = Some n →
  truthy (Some n) = true →
  shouldShowInterstitial q n = None →
  let w1 := gatedStep config env Next w in
  (currentQuestionId (state w1) = Some n
   ∧ questionHistory (state w1) = questionHistory (state w) ++ [n])
  ∧ gatedStep config env Previous w1 = w.
Proof.
  intros Hts Htr Hci Hcur Hq Hlast Hnext Hn Hshow w1.
  assert (w1 = mkWorld
                 (runCallback (NextQuestionCb n) (setIsTransitioning true (state w)))
                 [] (externals w)) as Hw1.
  { subst w1. eapply gatedStep_scheduled;
      [done | by apply (handleNext_to_question w q n) | done | done]. }
  clearbody w1. subst w1.
  set (w1 := mkWorld _ _ _).
  assert (pop (questionHistory (state w1)) = questionHistory (state w)) as Hpop.
  { unfold pop. apply removelast_last. }
  split; [done|].
  rewrite (gatedStep_scheduled Previous w1 (setIsTransitioning true)
             (PreviousCb (lastElement (pop (questionHistory (state w1))))
                (pop (questionHistory (state w1)))) 50 n q).
  - subst w1. cbn. unfold pop, lastElement. rewrite removelast_last, Hlast.
    destruct w as [[st cur hist tr it ci p latch] ts ex]. simpl in *. by subst.
  - done.
  - apply handlePrevious_pop; [|done]. subst w1. simpl.
    rewrite length_app. simpl. destruct (questionHistory (state w)); [done|simpl; lia].
  - done.
  - change (lastElement (pop (questionHistory (state w1))) = Some q).
    by rewrite Hpop.
Qed.

(** X5. Going back from the question that follows an interstitial skips
    the interstitial.  From a settled world at question [x], a gated
    [handleNext] shows interstitial [k], a gated continue lands on the
    bound question, and a gated [handlePrevious] from there is on the
    question stage at [x] with the history it started with and no
    interstitial on screen. *)
Theorem retreat_skips_interstitial
    (w : World) (x toId : string) (k : InterstitialType) :
  timers w = [] →
  isInterstitialTransitioning (state w) = false →
  currentQuestionId (state w) = Some x →
  last (questionHistory (state w)) = Some x →
  getNextQuestionId x (ledger w) (questions config) = Some toId →
  shouldShowInterstitial x toId = Some k →
  let w3 := runGated config env [Next; InterstitialContinue; Previous] w in
  stage (state w3) = StQuestions
  ∧ currentQuestionId (state w3) = Some x
  ∧ questionHistory (state w3) = questionHistory (state w)
  ∧ currentInterstitial (state w3) = None
  ∧ ledger w3 = ledger w
  ∧ timers w3 = [].
Proof.
  intros Hts Hit Hcur Hlast Hnext Hshow w3.
  pose proof Hshow as Hbind. apply shouldShowInterstitial_Some in Hbind as [-> ->].
  set (w1 := mkWorld (runCallback (ShowInterstitialCb k)
                        (setIsTransitioning true (state w))) [] (externals w)).
  set (w2 := mkWorld (runCallback (InterstitialContinueCb (Some (interstitialTo k)))
                        (setIsInterstitialTransitioning true (state w1)))
               [] (externals w1)).
  assert (gatedStep config env Next w = w1) as H1.
  { eapply gatedStep_scheduled;
      [done | by eapply handleNext_to_interstitial | done | done]. }
  assert (gatedStep config env InterstitialContinue w1 = w2) as H2.
  { eapply gatedStep_scheduled;
      [done | by apply (handleInterstitialContinue_go w1 k) | done |].
    cbn [runCallback]. by rewrite truthy_interstitialTo. }
  assert (questionHistory (state w2)
          = questionHistory (state w) ++ [interstitialTo k]) as Hhist.
  { subst w2. cbn [runCallback state]. by rewrite truthy_interstitialTo. }
  assert (currentInterstitial (state w2) = None) as Hci2.
  { subst w2. cbn [runCallback state]. by rewrite truthy_interstitialTo. }
  assert (currentQuestionId (state w2) = Some (interstitialTo k)) as Hcur2.
  { subst w2. cbn [runCallback state]. by rewrite truthy_interstitialTo. }
  assert (pop (questionHistory (state w2)) = questionHistory (state w)) as Hpop.
  { rewrite Hhist. apply removelast_last. }
  subst w3. unfold runGated. cbn [foldl]. rewrite H1, H2.
  rewrite (gatedStep_scheduled Previous w2 (setIsTransitioning true)
             (PreviousCb (lastElement (pop (questionHistory (state w2))))
                (pop (questionHistory (state w2)))) 50
             (interstitialTo k) (interstitialFrom k)).
  - rewrite Hpop. subst w2. cbn [runCallback state]. rewrite truthy_interstitialTo.
    unfold ledger. simpl. done.
  - done.
  - apply handlePrevious_pop; [|done]. rewrite Hhist, length_app. simpl.
    destruct (questionHistory (state w)); [done|simpl; lia].
  - done.
  - change (lastElement (pop (questionHistory (state w2)))
            = Some (interstitialFrom k)).
    by rewrite Hpop.
Qed.

End GatedSteps.

Lemma interstitial_table_is_consistent_witness :
  let w := @runGated catalogUtils browserBuiltins sixQuestions embedded
             [Answer (mkAnswer "q1" "y"); Next] (initialWorld sixQuestions) in
  timers (handleInterstitialContinue w) = [mkTimer 500 (InterstitialContinueCb (Some "q2"))]
  ∧ timers (handleInterstitialBack w) = [mkTimer 500 (InterstitialBackCb (Some "q1"))].
Proof.
  intros w.
  destruct (interstitial_table_is_consistent w "q1" "q2" IA)
    as (Hcont & Hback & _); [reflexivity | reflexivity | reflexivity |].
  split; [exact Hcont | exact Hback].
Defined.

Lemma advance_then_retreat_round_trip_witness :
  let w := @runGated catalogUtils browserBuiltins sixQuestions embedded
             [Answer (mkAnswer "q1" "y"); Next; InterstitialContinue;
              Answer (mkAnswer "q2" "n")] (initialWorld sixQuestions) in
  let w1 := @gatedStep catalogUtils browserBuiltins sixQuestions embedded Next w in
  questionHistory (state w) = ["q1"; "q2"]
  ∧ questionHistory (state w1) = ["q1"; "q2"; "q3"]
  ∧ @gatedStep catalogUtils browserBuiltins sixQuestions embedded Previous w1 = w.
Proof.
  intros w w1.
  destruct (@advance_then_retreat_round_trip catalogUtils browserBuiltins sixQuestions
              embedded w "q2" "q3")
    as ((_ & Hhist) & Hback); try reflexivity.
  split_and!; [reflexivity | exact Hhist | exact Hback].
Defined.

Lemma retreat_skips_interstitial_witness :
  let w := @runGated catalogUtils browserBuiltins sixQuestions embedded
             [Answer (mkAnswer "q1" "y")] (initialWorld sixQuestions) in
  let w3 := @runGated catalogUtils browserBuiltins sixQuestions embedded
              [Next; InterstitialContinue; Previous] w in
  stage (state w3) = StQuestions
  ∧ currentQuestionId (state w3) = Some "q1"
  ∧ questionHistory (state w3) = ["q1"].
Proof.
  intros w w3.
  destruct (@retreat_skips_interstitial catalogUtils browserBuiltins sixQuestions
              embedded w "q1" "q2" IA)
    as (Hstage & Hcur & Hhist & _); try reflexivity.
  split_and!; [exact Hstage | exact Hcur | exact Hhist].
Defined.

(** ** Reaching the end *)

Lemma recordAnswer_not_nil (a : QuizAnswer) (l : list QuizAnswer) :
  recordAnswer a l ≠ [].
Proof.
  destruct l as [|b l]; [done|]. rewrite recordAnswer_unfold.
  destruct (_ >? _); intros Heq; apply (f_equal length) in Heq.
  - by rewrite length_insert in Heq.
  - by rewrite length_app in Heq.
Qed.

Section ReachingTheEnd.
Context {U : QuizUtils} {B : JsBuiltins}.
Variable config : QuizConfig.
Variable env : Env.

Lemma renderStage_no_current (s : State) :
  stage s = StQuestions → currentQuestionId s = None →
  renderStage config s = FinalizingScreen.
Proof. intros Hst Hcur. unfold renderStage, currentQuestion. by rewrite Hst, Hcur. Qed.

(** X6. [handleNext] on a question after which the resolver has nothing
    (it answers [null] or the empty string) clears the current question
    at once, without a timed transition and without touching the
    history.  If the ledger holds an answer the completion effect then
    runs: the stage is the redirecting one, the latch is set, and the
    webhook and redirect calls are logged.  If the ledger is empty nothing
    is dispatched and the finalizing spinner is what is rendered. *)
Theorem advance_past_last_question (w : World) (q : string) :
  stage (state w) = StQuestions →
  currentQuestionId (state w) = Some q →
  truthy (Some q) = true →
  truthy (getNextQuestionId q (ledger w) (questions config)) = false →
  hasSentCompletionData (state w) = false →
  let w' := step config env (Dispatch Next) w in
  currentQuestionId (state w') = None
  ∧ questionHistory (state w') = questionHistory (state w)
  ∧ timers w' = timers w
  ∧ (ledger w ≠ [] →
     stage (state w') = StRedirecting
     ∧ hasSentCompletionData (state w') = true
     ∧ externals w' = externals w ++ webhookCalls config (ledger w) ++ redirectCalls env)
  ∧ (ledger w = [] →
     stage (state w') = StQuestions
     ∧ hasSentCompletionData (state w') = false
     ∧ externals w' = externals w
     ∧ renderStage config (state w') = FinalizingScreen).
Proof.
  intros Hst Hcur Hq Hnext Hlatch w'. subst w'. unfold step, handle.
  rewrite (handleNext_at_end config w q) by done.
  set (w0 := withState (setCurrentQuestionId None) w).
  assert (ledger w0 = ledger w) as Hledger by done.
  destruct (ledger w) as [|a l] eqn:Hl.
  - assert (completionCondition (state w0) = false) as Hidle.
    { destruct (completionCondition (state w0)) eqn:Hcond; [|done].
      apply completionCondition_true in Hcond as (_ & Hne & _).
      unfold ledger in Hledger. congruence. }
    rewrite completionEffect_idle by done.
    split_and!; try done. intros _. split_and!; try done.
    by apply renderStage_no_current.
  - assert (completionCondition (state w0) = true) as Hcond.
    { apply completionCondition_true. unfold ledger in Hledger.
      split; [by split|split; [by rewrite Hledger|done]]. }
    split_and!.
    + by rewrite state_completionEffect.
    + by rewrite state_completionEffect.
    + by rewrite timers_completionEffect.
    + intros _. rewrite state_completionEffect, externals_completionEffect by done.
      by rewrite Hledger.
    + done.
Qed.

(** X7. The webhook of the completion effect.  With no [webhookUrl], an
    empty one, or one that is blank after [trim], the effect logs the
    redirect calls and nothing else.  With any other [webhookUrl] it logs
    one webhook call to that URL before the redirect, addressed to the
    fixed recipient, whose payload holds the fixed name, e-mail and quiz
    id and the answer summary; the participant's own name and e-mail
    are not in it. *)
Theorem completion_webhook (w : World) :
  completionCondition (state w) = true →
  ((∀ url, webhookUrl config = Some url → url = "" ∨ trim url = "") →
   externals (completionEffect config env w) = externals w ++ redirectCalls env)
  ∧ (∀ url, webhookUrl config = Some url → url ≠ "" → trim url ≠ "" →
     externals (completionEffect config env w)
     = externals w
       ++ [SendEmailGateWebhook url "Spanishlearner@fallsale.com"
             (mkPayload "Spanish Learner" "Spanishlearner@fallsale.com"
                (humanReadableMap config (ledger w)) "fall-sale")]
       ++ redirectCalls env).
Proof.
  intros Hcond. rewrite externals_completionEffect by done.
  unfold webhookCalls, payloadOverride. split.
  - intros Hblank. destruct (webhookUrl config) as [url|]; [|done].
    destruct (Hblank url eq_refl) as [->|Htrim]; [done|].
    rewrite Htrim. simpl. by rewrite andb_false_r.
  - intros url -> Hne Htrim.
    apply truthy_Some in Hne. rewrite Hne.
    apply String.eqb_neq in Htrim. rewrite Htrim. done.
Qed.

(** X8. Recording an answer never navigates: the current question, the
    history, the interstitial on screen, the in-flight flags and the
    pending callbacks are what they were.  The stage changes only if the
    completion effect runs, and it runs on an answer exactly when the
    questions were already exhausted with the latch unset. *)
Theorem answer_never_navigates (a : QuizAnswer) (w : World) :
  let w' := step config env (Dispatch (Answer a)) w in
  currentQuestionId (state w') = currentQuestionId (state w)
  ∧ questionHistory (state w') = questionHistory (state w)
  ∧ currentInterstitial (state w') = currentInterstitial (state w)
  ∧ isTransitioning (state w') = isTransitioning (state w)
  ∧ isInterstitialTransitioning (state w') = isInterstitialTransitioning (state w)
  ∧ timers w' = timers w
  ∧ ledger w' = recordAnswer a (ledger w)
  ∧ (noCurrentQuestion (state w) ∧ hasSentCompletionData (state w) = false →
     stage (state w') = StRedirecting
     ∧ externals w'
       = externals w ++ webhookCalls config (recordAnswer a (ledger w))
           ++ redirectCalls env)
  ∧ (¬ (noCurrentQuestion (state w) ∧ hasSentCompletionData (state w) = false) →
     stage (state w') = stage (state w) ∧ externals w' = externals w).
Proof.
  intros w'. subst w'. unfold step, handle.
  set (w0 := handleAnswer a w).
  assert (ledger w0 = recordAnswer a (ledger w)) as Hledger by done.
  assert (ledger w0 ≠ []) as Hne by (rewrite Hledger; apply recordAnswer_not_nil).
  destruct (completionCondition (state w0)) eqn:Hcond.
  - pose proof Hcond as (Hno & _ & Hlatch)%completionCondition_true.
    rewrite state_completionEffect, timers_completionEffect,
      externals_completionEffect by done.
    assert (ledger (completionEffect config env w0) = recordAnswer a (ledger w)) as ->.
    { unfold ledger at 1. by rewrite state_completionEffect. }
    rewrite Hledger.
    split_and!; try done. intros Hnot. by destruct Hnot.
  - rewrite completionEffect_idle by done.
    split_and!; try done. intros [Hno Hlatch].
    assert (completionCondition (state w0) = true) as Htrue; [|congruence].
    apply completionCondition_true. by split_and!.
Qed.

End ReachingTheEnd.

Lemma advance_past_last_question_witness :
  let w := @runGated catalogUtils browserBuiltins twoQuestions topLevel
             [Answer (mkAnswer "q7" "y"); Next] (initialWorld twoQuestions) in
  let w' := @step catalogUtils browserBuiltins twoQuestions topLevel (Dispatch Next) w in
  currentQuestionId (state w) = Some "q8"
  ∧ stage (state w') = StRedirecting
  ∧ currentQuestionId (state w') = None
  ∧ externals w' = [PostMessage redirectUrl; SetLocationHref redirectUrl].
Proof.
  intros w w'.
  destruct (@advance_past_last_question catalogUtils browserBuiltins twoQuestions topLevel
              w "q8")
    as (Hcur & _ & _ & Hdone & _); try reflexivity.
  destruct Hdone as (Hstage & _ & Hext); [discriminate|].
  split_and!; [reflexivity | exact Hstage | exact Hcur | exact Hext].
Defined.

Lemma completion_webhook_witness :
  let w := @runGated catalogUtils browserBuiltins sevenQuestions embedded
             [Answer (mkAnswer "q0" "y")] (initialWorld sevenQuestions) in
  let w0 := withState (setCurrentQuestionId None) w in
  externals (@completionEffect catalogUtils browserBuiltins sevenQuestions embedded w0)
  = [SendEmailGateWebhook "https://hooks.example/quiz" "Spanishlearner@fallsale.com"
       (mkPayload "Spanish Learner" "Spanishlearner@fallsale.com"
          (@humanReadableMap catalogUtils sevenQuestions [mkAnswer "q0" "y"]) "fall-sale");
     PostMessage redirectUrl].
Proof.
  intros w w0.
  destruct (@completion_webhook catalogUtils browserBuiltins sevenQuestions embedded w0)
    as (_ & Hsent); [reflexivity|].
  apply (Hsent "https://hooks.example/quiz"); [reflexivity | discriminate |].
  vm_compute. discriminate.
Defined.

Lemma answer_never_navigates_witness :
  let w := @runGated catalogUtils browserBuiltins oneQuestion embedded
             [Next] (initialWorld oneQuestion) in
  let w' := @step catalogUtils browserBuiltins oneQuestion embedded
              (Dispatch (Answer (mkAnswer "q7" "y"))) w in
  stage (state w) = StQuestions
  ∧ externals w = []
  ∧ stage (state w') = StRedirecting
  ∧ externals w' = [PostMessage redirectUrl].
Proof.
  intros w w'.
  destruct (@answer_never_navigates catalogUtils browserBuiltins oneQuestion embedded
              (mkAnswer "q7" "y") w)
    as (_ & _ & _ & _ & _ & _ & _ & Hfire & _).
  destruct Hfire as (Hstage & Hext); [by split|].
  split_and!; [reflexivity | reflexivity | exact Hstage | exact Hext].
Defined.

(** ** The ledger over a session *)

Lemma find_first {A} (p : A → bool) (l : list A) (i : nat) (x : A) :
  l !! i = Some x → p x = true →
  (∀ (j : nat) (y : A), (j < i)%nat → l !! j = Some y → p y = false) →
  find p l = Some x.
Proof.
  revert i. induction l as [|b l IH]; intros [|i] Hi Hx Hmin; simpl in *; try done.
  - injection Hi as ->. by rewrite Hx.
  - rewrite (Hmin 0%nat b) by (done || lia).
    apply (IH i); [done | done |]. intros j y Hj Hy. apply (Hmin (S j) y); [lia|done].
Qed.

Lemma find_insert_other {A} (p : A → bool) (l : list A) (i : nat) (old new : A) :
  l !! i = Some old → p old = false → p new = false →
  find p (<[i := new]> l) = find p l.
Proof.
  revert i. induction l as [|b l IH]; intros [|i] Hi Hold Hnew; simpl in *; try done.
  - injection Hi as ->. by rewrite Hold, Hnew.
  - destruct (p b); [done|]. by apply IH.
Qed.

Lemma find_snoc_other {A} (p : A → bool) (l : list A) (new : A) :
  p new = false → find p (l ++ [new]) = find p l.
Proof.
  intros Hnew. induction l as [|b l IH]; simpl; [by rewrite Hnew|].
  by destruct (p b).
Qed.

Lemma find_findIndex {A} (p : A → bool) (l : list A) (x : A) :
  find p l = Some x →
  ∃ i : nat, findIndex p l = Z.of_nat i ∧ l !! i = Some x ∧ p x = true
             ∧ ∀ (j : nat) (y : A), (j < i)%nat → l !! j = Some y → p y = false.
Proof.
  intros Hfind.
  destruct (findIndex_some p l) as (i & x' & Hi & Hx' & Hp & Hmin).
  { rewrite findIndex_none. intros Hall.
    apply find_some in Hfind as [Hin Hpx]. apply list_elem_of_In in Hin.
    specialize (Hall x Hin). congruence. }
  rewrite (find_first p l i x' Hx' Hp Hmin) in Hfind. injection Hfind as ->.
  by exists i.
Qed.

Lemma recordAnswer_holds_answer (a : QuizAnswer) (l : list QuizAnswer) :
  a ∈ recordAnswer a l.
Proof.
  destruct (decide (questionId a ∈ questionId <$> l)) as [Hin|Hnin].
  - destruct (recordAnswer_found a l Hin) as (i & old & Hi & _ & _ & ->).
    apply list_elem_of_lookup. exists i. apply list_lookup_insert_eq.
    by eapply lookup_lt_Some.
  - rewrite recordAnswer_fresh by done. apply elem_of_app. right. apply list_elem_of_here.
Qed.

Lemma recordAnswer_keeps_others (a b : QuizAnswer) (l : list QuizAnswer) :
  questionId b ≠ questionId a → b ∈ recordAnswer a l ↔ b ∈ l.
Proof.
  intros Hne. destruct (decide (questionId a ∈ questionId <$> l)) as [Hin|Hnin].
  - destruct (recordAnswer_found a l Hin) as (i & old & Hi & Hold & _ & ->).
    rewrite !list_elem_of_lookup. split; intros [j Hj]; exists j.
    + destruct (decide (i = j)) as [->|Hij].
      * rewrite list_lookup_insert_eq in Hj by by eapply lookup_lt_Some.
        injection Hj as <-. done.
      * by rewrite list_lookup_insert_ne in Hj.
    + destruct (decide (i = j)) as [->|Hij]; [congruence|].
      by rewrite list_lookup_insert_ne.
  - rewrite recordAnswer_fresh by done. rewrite elem_of_app, list_elem_of_singleton.
    split; [intros [?| ->]; done | by left].
Qed.

Lemma recordAnswer_ids (a : QuizAnswer) (l : list QuizAnswer) (q : string) :
  q ∈ questionId <$> recordAnswer a l ↔ q ∈ questionId <$> l ∨ q = questionId a.
Proof.
  destruct (decide (questionId a ∈ questionId <$> l)) as [Hin|Hnin].
  - rewrite recordAnswer_ids_found by done. split; [by left|]. by intros [?| ->].
  - rewrite recordAnswer_fresh, fmap_app, elem_of_app by done. simpl.
    by rewrite list_elem_of_singleton.
Qed.

Section Ledger.
Context {U : QuizUtils} {B : JsBuiltins}.
Variable config : QuizConfig.
Variable env : Env.

Lemma ledger_completionEffect (w : World) :
  ledger (completionEffect config env w) = ledger w.
Proof.
  unfold ledger.
  by destruct (state_completionEffect_cases config env w) as [->|[_ ->]].
Qed.

Lemma ledger_step (e : Event) (w : World) :
  ledger (step config env e w)
  = match e with
    | Dispatch (Answer a) => recordAnswer a (ledger w)
    | _ => ledger w
    end.
Proof.
  unfold step. rewrite ledger_completionEffect. unfold ledger.
  destruct e as [[a| | |]|n|]; simpl; try done.
  - unfold handleNext. repeat case_match; done.
  - unfold handlePrevious, handleInterstitialBack. repeat case_match; done.
  - unfold handleInterstitialContinue. repeat case_match; done.
  - unfold fire. destruct (timers w !! n) as [[d cb]|]; [|done]. simpl.
    destruct cb; simpl; repeat case_match; done.
Qed.

Lemma ledger_NoDup_run (es : list Event) (w : World) :
  NoDup (questionId <$> ledger w) →
  NoDup (questionId <$> ledger (run config env es w)).
Proof.
  revert w. induction es as [|e es IH]; intros w Hnd; [done|].
  unfold run in *. simpl. apply IH. rewrite ledger_step.
  destruct e as [[a| | |]|n|]; try done. by apply recordAnswer_NoDup.
Qed.

Lemma ledger_ids_run (es : list Event) (w : World) (q : string) :
  q ∈ questionId <$> ledger (run config env es w)
  ↔ q ∈ questionId <$> ledger w
    ∨ ∃ a, Dispatch (Answer a) ∈ es ∧ questionId a = q.
Proof.
  revert w. induction es as [|e es IH]; intros w.
  - split; [by left|]. intros [?|(a & Ha & _)]; [done|by inversion Ha].
  - unfold run in *. simpl. rewrite IH, ledger_step. split.
    + intros [Hin|(a & Ha & Hq)].
      * destruct e as [[a| | |]|n|]; try by left.
        apply recordAnswer_ids in Hin as [?| ->]; [by left|].
        right. exists a. split; [apply list_elem_of_here|done].
      * right. exists a. split; [by apply list_elem_of_further|done].
    + intros [Hin|(a & Ha & Hq)].
      * left. destruct e as [[a| | |]|n|]; try done.
        apply recordAnswer_ids. by left.
      * apply elem_of_cons in Ha as [<- |Ha].
        -- left. apply recordAnswer_ids. by right.
        -- right. by exists a.
Qed.

Lemma ledger_keeps_last (es : list Event) (w : World) (a : QuizAnswer) :
  a ∈ ledger w →
  (∀ b, Dispatch (Answer b) ∈ es → questionId b ≠ questionId a) →
  a ∈ ledger (run config env es w).
Proof.
  revert w. induction es as [|e es IH]; intros w Ha Hlater; [done|].
  unfold run in *. simpl. apply IH.
  - rewrite ledger_step. destruct e as [[b| | |]|n|]; try done.
    apply recordAnswer_keeps_others; [|done].
    intros Heq. apply (Hlater b); [apply list_elem_of_here|done].
  - intros b Hb. apply Hlater. by apply list_elem_of_further.
Qed.

(** X9. Over any sequence of events from the start of a session the
    ledger holds at most one answer per question; the questions it holds
    an answer for are exactly those an answer event was dispatched for;
    and the answer it holds for a question is the one dispatched last for
    that question. *)
Theorem ledger_is_keyed_by_question (es : list Event) :
  let l := ledger (run config env es (initialWorld config)) in
  NoDup (questionId <$> l)
  ∧ (∀ q, q ∈ questionId <$> l ↔ ∃ a, Dispatch (Answer a) ∈ es ∧ questionId a = q)
  ∧ (∀ es1 a es2,
       es = es1 ++ Dispatch (Answer a) :: es2 →
       (∀ b, Dispatch (Answer b) ∈ es2 → questionId b ≠ questionId a) →
       a ∈ l ∧ ∀ b, b ∈ l → questionId b = questionId a → b = a).
Proof.
  intros l. subst l.
  assert (NoDup (questionId <$> ledger (run config env es (initialWorld config)))) as Hnd.
  { apply ledger_NoDup_run. apply NoDup_nil_2. }
  split_and!; [done | |].
  - intros q. rewrite ledger_ids_run. split; [|by right].
    intros [Hin|?]; [by inversion Hin|done].
  - intros es1 a es2 -> Hlater.
    assert (a ∈ ledger (run config env (es1 ++ Dispatch (Answer a) :: es2)
                          (initialWorld config))) as Ha.
    { unfold run. rewrite foldl_app. simpl. apply ledger_keeps_last; [|done].
      rewrite ledger_step. apply recordAnswer_holds_answer. }
    split; [done|]. intros b Hb Hid.
    apply list_elem_of_lookup in Ha as [i Hi]. apply list_elem_of_lookup in Hb as [j Hj].
    assert (i = j) as ->; [|congruence].
    eapply NoDup_lookup; [exact Hnd | |].
    + by rewrite list_lookup_fmap, Hi.
    + rewrite list_lookup_fmap, Hj. simpl. by rewrite Hid.
Qed.

(** X10. What the question card is pre-filled with.  After
    [handleAnswer] for the current question, [currentAnswer] is that
    answer; after [handleAnswer] for any other question, [currentAnswer]
    is what it was. *)
Theorem currentAnswer_after_handleAnswer (a : QuizAnswer) (w : World) (q : string) :
  currentQuestionId (state w) = Some q →
  q ≠ "" →
  (q = questionId a → currentAnswer (state (handleAnswer a w)) = Some a)
  ∧ (q ≠ questionId a →
     currentAnswer (state (handleAnswer a w)) = currentAnswer (state w)).
Proof.
  intros Hcur Hq. apply truthy_Some in Hq.
  unfold currentAnswer. simpl. rewrite Hcur, Hq.
  set (p := λ b : QuizAnswer, bool_decide (Some (questionId b) = Some q)).
  set (l := answers (participant (state w))).
  assert (∀ b, p b = true ↔ questionId b = q) as Hp.
  { intros b. unfold p. rewrite bool_decide_eq_true. split; congruence. }
  assert (∀ b, p b = false ↔ questionId b ≠ q) as Hnp.
  { intros b. unfold p. rewrite bool_decide_eq_false. split; congruence. }
  split.
  - intros ->.
    destruct (decide (questionId a ∈ questionId <$> l)) as [Hin|Hnin].
    + destruct (recordAnswer_found a l Hin) as (i & old & Hi & _ & Hmin & ->).
      apply (find_first p _ i).
      * apply list_lookup_insert_eq. by eapply lookup_lt_Some.
      * by apply Hp.
      * intros j y Hj Hy. rewrite list_lookup_insert_ne in Hy by lia.
        apply Hnp. by eapply Hmin.
    + rewrite recordAnswer_fresh by done.
      apply (find_first p _ (length l)).
      * by rewrite lookup_app_r, Nat.sub_diag.
      * by apply Hp.
      * intros j y Hj Hy. rewrite lookup_app_l in Hy by done.
        apply Hnp. intros Heq. apply Hnin. rewrite <- Heq.
        apply list_elem_of_fmap. exists y. split; [done|].
        apply list_elem_of_lookup. eauto.
  - intros Hne.
    assert (p a = false) as Ha by (apply Hnp; congruence).
    destruct (decide (questionId a ∈ questionId <$> l)) as [Hin|Hnin].
    + destruct (recordAnswer_found a l Hin) as (i & old & Hi & Hold & _ & ->).
      apply (find_insert_other p l i old a); [done | | done].
      apply Hnp. congruence.
    + rewrite recordAnswer_fresh by done. by apply find_snoc_other.
Qed.

End Ledger.

Lemma currentAnswer_after_handleAnswer_witness :
  let w := @runGated catalogUtils browserBuiltins twoQuestions embedded
             [Answer (mkAnswer "q7" "y"); Next; Answer (mkAnswer "q8" "y")]
             (initialWorld twoQuestions) in
  currentAnswer (state (handleAnswer (mkAnswer "q8" "n") w)) = Some (mkAnswer "q8" "n")
  ∧ currentAnswer (state (handleAnswer (mkAnswer "q7" "n") w)) = Some (mkAnswer "q8" "y").
Proof.
  intros w. split.
  - destruct (currentAnswer_after_handleAnswer (mkAnswer "q8" "n") w "q8")
      as [Hsame _]; [reflexivity | discriminate |].
    apply Hsame. reflexivity.
  - destruct (currentAnswer_after_handleAnswer (mkAnswer "q7" "n") w "q8")
      as [_ Hother]; [reflexivity | discriminate |].
    rewrite Hother; [reflexivity | discriminate].
Defined.

Lemma ledger_is_keyed_by_question_witness :
  let es := [Dispatch (Answer (mkAnswer "q7" "y")); Dispatch Next;
             Dispatch (Answer (mkAnswer "q7" "n")); Fire 0] in
  mkAnswer "q7" "n"
    ∈ ledger (@run catalogUtils browserBuiltins twoQuestions embedded es
                (initialWorld twoQuestions)).
Proof.
  intros es.
  destruct (@ledger_is_keyed_by_question catalogUtils browserBuiltins twoQuestions
              embedded es) as (_ & _ & Hlast).
  apply (Hlast [Dispatch (Answer (mkAnswer "q7" "y")); Dispatch Next]
               (mkAnswer "q7" "n") [Fire 0]); [reflexivity|].
  intros b Hb. apply list_elem_of_singleton in Hb. discriminate Hb.
Defined.

(** ** What is on screen *)

Section OnScreen.
Context {U : QuizUtils} {B : JsBuiltins}.
Variable config : QuizConfig.
Variable env : Env.


Lemma stageShape_runCallback (cb : Callback) (s : State) :
  stageShape s → stageShape (runCallback cb s).
Proof.
  intros Hs. destruct cb as [k|n|[n|]|[p|]|p nh]; simpl; try done.
  - right. by exists k.
  - destruct (truthy (Some n)); [|done]. left. split; [by left|done].
  - destruct (truthy (Some p)); [|done]. left. split; [by left|done].
Qed.

Lemma stageShape_pre_effect (e : Event) (w : World) :
  stageShape (state w) →
  stageShape (state (match e with
                     | Dispatch i => handle config i w
                     | Fire n => fire n w
                     | Rerender => w
                     end)).
Proof.
  intros Hs. destruct e as [[a| | |]|n|]; simpl; try done.
  - unfold handleNext. repeat case_match; done.
  - unfold handlePrevious, handleInterstitialBack. repeat case_match; done.
  - unfold handleInterstitialContinue. repeat case_match; done.
  - unfold fire. destruct (timers w !! n) as [[d cb]|]; [|done]. simpl.
    by apply stageShape_runCallback.
Qed.

Lemma stageShape_completionEffect (w : World) :
  stageShape (state w) → stageShape (state (completionEffect config env w)).
Proof.
  intros Hs. destruct (state_completionEffect_cases config env w) as [->|[Hcond ->]];
    [done|].
  apply completionCondition_true in Hcond as ((Hst & _) & _).
  destruct Hs as [[_ Hci]|(k & Hk & _)]; [|congruence].
  left. split; [by right|done].
Qed.

Lemma stageShape_run (es : list Event) (w : World) :
  stageShape (state w) → stageShape (state (run config env es w)).
Proof.
  revert w. induction es as [|e es IH]; intros w Hs; [done|].
  unfold run in *. simpl. apply IH. unfold step.
  by apply stageShape_completionEffect, stageShape_pre_effect.
Qed.

Lemma stageShape_initial : stageShape (state (initialWorld config)).
Proof. left. split; [by left|done]. Qed.

(** X12. Over any sequence of events from the start of a session the
    stage is the question stage, one of the three interstitial stages or
    the redirecting stage, never the intro or the generic interstitial
    stage; an interstitial stage is on exactly when [currentInterstitial]
    holds its kind; and [renderStage] always returns an element. *)
Theorem stage_and_interstitial_agree (es : list Event) :
  let s := state (run config env es (initialWorld config)) in
  stage s ≠ StIntro
  ∧ stage s ≠ StInterstitial
  ∧ (∀ k, stage s = StInterstitialOf k ↔ currentInterstitial s = Some k)
  ∧ renderStage config s ≠ NoScreen.
Proof.
  intros s. subst s.
  pose proof (stageShape_run es _ stageShape_initial) as Hs.
  set (s := state (run config env es (initialWorld config))) in *.
  destruct Hs as [[[Hst|Hst] Hci]|(k & Hk & Hci)].
  - split_and!; try congruence.
    + intros k. rewrite Hst, Hci. split; discriminate.
    + unfold renderStage. rewrite Hst. by destruct (currentQuestion config s).
  - split_and!; try congruence.
    + intros k. rewrite Hst, Hci. split; discriminate.
    + unfold renderStage. by rewrite Hst.
  - split_and!; try congruence.
    + intros k'. rewrite Hk, Hci. split; congruence.
    + unfold renderStage. by rewrite Hk.
Qed.

Lemma offers_Previous (s : State) :
  offers (renderStage config s) Previous = true → stage s = StQuestions.
Proof.
  unfold renderStage. destruct (stage s); try done.
Qed.

Lemma noBack_pre_effect (e : Event) (w : World) :
  stageShape (state w) →
  match e with
  | Dispatch i => offers (renderStage config (state w)) i = true
  | _ => True
  end →
  Forall (λ t, isInterstitialBackCb (callback t) = false) (timers w) →
  Forall (λ t, isInterstitialBackCb (callback t) = false)
    (timers (match e with
             | Dispatch i => handle config i w
             | Fire n => fire n w
             | Rerender => w
             end)).
Proof.
  intros Hs Hoff Hno. destruct e as [[a| | |]|n|]; simpl; try done.
  - unfold handleNext. repeat case_match; try done;
      simpl; apply Forall_app; split; try done; by apply Forall_singleton.
  - apply offers_Previous in Hoff.
    destruct Hs as [[_ Hci]|(k & Hk & _)]; [|congruence].
    unfold handlePrevious. rewrite Hci. case_match; [done|].
    simpl. apply Forall_app. split; [done|]. by apply Forall_singleton.
  - unfold handleInterstitialContinue. repeat case_match; try done;
      simpl; apply Forall_app; split; try done; by apply Forall_singleton.
  - unfold fire. destruct (timers w !! n) as [[d cb]|]; [|done]. simpl.
    by apply Forall_delete.
Qed.

Lemma noBack_run (es : list Event) (w : World) :
  stageShape (state w) →
  Forall (λ t, isInterstitialBackCb (callback t) = false) (timers w) →
  offeredRun config env es w →
  Forall (λ t, isInterstitialBackCb (callback t) = false)
    (timers (run config env es w)).
Proof.
  revert w. induction es as [|e es IH]; intros w Hs Hno Hoff; [done|].
  destruct Hoff as [Hoff Hrest]. unfold run in *. simpl. apply IH; [| |done].
  - unfold step. by apply stageShape_completionEffect, stageShape_pre_effect.
  - unfold step. rewrite timers_completionEffect. by apply noBack_pre_effect.
Qed.

(** X13. When every intent comes from the element on screen, going back
    from an interstitial never happens: the back handler is handed to
    the question card alone, a question card is rendered only on the
    question stage, and there no interstitial is active; so no session
    ever has an interstitial-back callback pending. *)
Theorem interstitial_back_is_never_scheduled (es : list Event) :
  offeredRun config env es (initialWorld config) →
  Forall (λ t, isInterstitialBackCb (callback t) = false)
    (timers (run config env es (initialWorld config))).
Proof.
  intros Hoff. apply noBack_run; [apply stageShape_initial | done | done].
Qed.

End OnScreen.


Lemma interstitial_back_is_never_scheduled_witness :
  Forall (λ t, isInterstitialBackCb (callback t) = false)
    (timers (@run catalogUtils browserBuiltins sevenQuestions embedded
               [Dispatch Next; Fire 0; Dispatch Previous; Dispatch Next]
               (initialWorld sevenQuestions))).
Proof.
  apply (@interstitial_back_is_never_scheduled catalogUtils browserBuiltins
           sevenQuestions embedded).
  vm_compute. repeat split.
Defined.

(** ** What holds of every session *)

Lemma head_snoc (l : list string) (x : string) (first : string) :
  head l = Some first → head (l ++ [x]) = Some first.
Proof. by destruct l. Qed.

Lemma head_removelast (l : list string) :
  (1 < length l)%nat → head (removelast l) = head l.
Proof. destruct l as [|a [|b l]]; simpl; [lia | lia | done]. Qed.

Lemma last_removelast_is_Some (l : list string) :
  (1 < length l)%nat → is_Some (last (removelast l)).
Proof.
  intros Hlen. destruct (last (removelast l)) eqn:Hlast; [by eexists|].
  apply last_None in Hlast. by apply removelast_not_nil in Hlen.
Qed.

Section EverySession.
Context {U : QuizUtils} {B : JsBuiltins}.
Variable config : QuizConfig.
Variable env : Env.

Section Shape.
Variable first : string.

Lemma sessionShape_scheduled (w : World) (f : State → State) (cb : Callback) (ms : nat) :
  sessionShape first w →
  questionHistory (f (state w)) = questionHistory (state w) →
  pendingOk (Some first) (mkTimer ms cb) →
  sessionShape first (setTimeout cb ms (withState f w)).
Proof.
  intros [Hhead Hts] Hhist Hok. split; simpl.
  - by rewrite Hhist.
  - apply Forall_app. split; [done|]. by apply Forall_singleton.
Qed.

Lemma sessionShape_handle (i : Intent) (w : World) :
  sessionShape first w → sessionShape first (handle config i w).
Proof.
  intros Hs. pose proof Hs as [Hhead Hts]. destruct i as [a| | |]; simpl.
  - done.
  - unfold handleNext. repeat case_match; try done;
      by apply sessionShape_scheduled.
  - unfold handlePrevious.
    destruct (Z.leb_spec (Z.of_nat (length (questionHistory (state w)))) 1) as [|Hlen];
      [done|].
    destruct (currentInterstitial (state w)) as [k|] eqn:Hci.
    + unfold handleInterstitialBack. rewrite Hci.
      destruct (isInterstitialTransitioning (state w)); [done|].
      destruct k; apply sessionShape_scheduled; try done;
        (split; [done|]); simpl;
        [by exists IA | by exists IB | by exists IC].
    + apply sessionShape_scheduled; [done | done |].
      split; [done|]. simpl. unfold pop, lastElement. split_and!.
      * done.
      * apply last_removelast_is_Some. lia.
      * rewrite head_removelast by lia. done.
  - unfold handleInterstitialContinue.
    destruct (currentInterstitial (state w)) as [k|]; [|done].
    destruct (isInterstitialTransitioning (state w)); [done|].
    destruct k; apply sessionShape_scheduled; try done;
      (split; [done|]); simpl;
      [by exists IA | by exists IB | by exists IC].
Qed.

Lemma sessionShape_fire (n : nat) (w : World) :
  sessionShape first w → sessionShape first (fire n w).
Proof.
  intros [Hhead Hts]. unfold fire.
  destruct (timers w !! n) as [[d cb]|] eqn:Hn; [|done].
  pose proof (Forall_lookup_1 _ _ _ _ Hts Hn) as [_ Hcb]. simpl in Hcb.
  split; simpl; [|by apply Forall_delete].
  destruct cb as [k|x|next|previous|previous newHistory]; simpl.
  - done.
  - by apply head_snoc.
  - destruct Hcb as [k ->]. rewrite truthy_interstitialTo. simpl. by apply head_snoc.
  - destruct Hcb as [k ->]. by rewrite truthy_interstitialFrom.
  - by destruct Hcb as (_ & _ & ?).
Qed.

Lemma sessionShape_completionEffect (w : World) :
  sessionShape first w → sessionShape first (completionEffect config env w).
Proof.
  intros [Hhead Hts]. split.
  - by destruct (state_completionEffect_cases config env w) as [->|[_ ->]].
  - by rewrite timers_completionEffect.
Qed.

Lemma sessionShape_run (es : list Event) (w : World) :
  sessionShape first w → sessionShape first (run config env es w).
Proof.
  revert w. induction es as [|e es IH]; intros w Hs; [done|].
  unfold run in *. simpl. apply IH. unfold step.
  apply sessionShape_completionEffect.
  destruct e; [by apply sessionShape_handle | by apply sessionShape_fire | done].
Qed.

Lemma sessionShape_initial (q : QuizQuestion) (rest : list QuizQuestion) :
  questions config = q :: rest → first = id q → sessionShape first (initialWorld config).
Proof.
  intros Hqs ->. split; [|done].
  unfold initialWorld, initialState. simpl. by rewrite Hqs.
Qed.

End Shape.

(** X14. With a non-empty catalog, over any sequence of events, gated or
    not, the history is never empty and always begins with the id of the
    first catalog entry: going back never removes the first question. *)
Theorem history_begins_with_first_question
    (q : QuizQuestion) (rest : list QuizQuestion) (es : list Event) :
  questions config = q :: rest →
  questionHistory (state (run config env es (initialWorld config))) ≠ []
  ∧ head (questionHistory (state (run config env es (initialWorld config))))
    = Some (id q).
Proof.
  intros Hqs.
  destruct (sessionShape_run (id q) es _ (sessionShape_initial (id q) q rest Hqs eq_refl))
    as [Hhead _].
  split; [|done]. intros Hnil. by rewrite Hnil in Hhead.
Qed.

(** X16. With a non-empty catalog, over any sequence of events, every
    pending callback was scheduled with the delay of its kind (300 ms to
    show an interstitial, 50 ms to change question, 500 ms to leave an
    interstitial); a pending interstitial exit aims at a question of the
    interstitial table; and a pending back step carries a non-empty
    history that begins with the first question, together with that
    history's last entry, so it never sets the current question to an
    undefined value. *)
Theorem pending_callbacks_are_in_order
    (q : QuizQuestion) (rest : list QuizQuestion) (es : list Event) :
  questions config = q :: rest →
  Forall (pendingOk (Some (id q))) (timers (run config env es (initialWorld config))).
Proof.
  intros Hqs.
  by destruct (sessionShape_run (id q) es _
                 (sessionShape_initial (id q) q rest Hqs eq_refl)) as [_ Hts].
Qed.

End EverySession.

Section Spinners.
Context {U : QuizUtils} {B : JsBuiltins}.
Variable config : QuizConfig.
Variable env : Env.

Lemma fire_nothing_pending (n : nat) (w : World) : timers w = [] → fire n w = w.
Proof. intros Hts. unfold fire. by rewrite Hts. Qed.

(** A settled world whose screen hands out no handler stays as it is. *)
Lemma idle_screen_run (es : list Event) (w : World) :
  timers w = [] →
  completionCondition (state w) = false →
  (∀ i, offers (renderStage config (state w)) i = false) →
  offeredRun config env es w →
  run config env es w = w.
Proof.
  intros Hts Hidle Hnone. induction es as [|e es IH]; intros Hoff; [done|].
  destruct Hoff as [Hoff Hrest].
  assert (step config env e w = w) as Hstep.
  { unfold step. destruct e as [i|n|].
    - rewrite Hnone in Hoff. done.
    - rewrite fire_nothing_pending by done. by apply completionEffect_idle.
    - by apply completionEffect_idle. }
  unfold run in *. simpl. rewrite Hstep in *. by apply IH.
Qed.

(** X15. A spinner is a dead end.  In a settled world that renders the
    finalizing or the redirecting spinner and in which the completion
    effect is idle, no sequence of timer firings, re-renders and intents
    raised from the screen changes anything: the world stays exactly as
    it is, and in particular nothing more is dispatched. *)
Theorem spinner_is_a_dead_end (es : list Event) (w : World) :
  timers w = [] →
  completionCondition (state w) = false →
  renderStage config (state w) = FinalizingScreen
  ∨ renderStage config (state w) = RedirectingScreen →
  offeredRun config env es w →
  run config env es w = w.
Proof.
  intros Hts Hidle Hscreen Hoff. apply idle_screen_run; try done.
  intros i. by destruct Hscreen as [-> | ->].
Qed.

(** X17. A session whose catalog is empty, or whose first question has
    the empty string as its id, never gets anywhere: the finalizing
    spinner is rendered from the start, and whatever sequence of timer
    firings, re-renders and intents raised from the screen follows, the
    world is the initial one; nothing is ever dispatched. *)
Theorem session_without_first_question_is_stuck (es : list Event) :
  truthy (currentQuestionId (initialState config)) = false →
  offeredRun config env es (initialWorld config) →
  renderStage config (initialState config) = FinalizingScreen
  ∧ run config env es (initialWorld config) = initialWorld config
  ∧ externals (run config env es (initialWorld config)) = [].
Proof.
  intros Hfalsy Hoff.
  assert (renderStage config (initialState config) = FinalizingScreen) as Hscreen.
  { unfold renderStage, currentQuestion. by rewrite Hfalsy. }
  assert (run config env es (initialWorld config) = initialWorld config) as Hrun.
  { apply idle_screen_run; try done.
    - unfold completionCondition. simpl. by rewrite andb_false_r.
    - intros i. simpl. by rewrite Hscreen. }
  split_and!; [done | done | by rewrite Hrun].
Qed.

End Spinners.

Lemma history_begins_with_first_question_witness :
  questionHistory
    (state (@run catalogUtils browserBuiltins twoQuestions embedded
              [Dispatch Next; Dispatch Previous; Dispatch Next; Fire 1; Fire 0; Fire 0]
              (initialWorld twoQuestions))) ≠ []
  ∧ head (questionHistory
            (state (@run catalogUtils browserBuiltins twoQuestions embedded
                      [Dispatch Next; Dispatch Previous; Dispatch Next; Fire 1; Fire 0; Fire 0]
                      (initialWorld twoQuestions)))) = Some "q7".
Proof.
  apply (@history_begins_with_first_question catalogUtils browserBuiltins twoQuestions
           embedded (mkQuestion "q7" "Seventh" yesNo)
           [mkQuestion "q8" "Eighth" yesNo]).
  reflexivity.
Defined.

Lemma pending_callbacks_are_in_order_witness :
  Forall (pendingOk (Some "q0"))
    (timers (@run catalogUtils browserBuiltins sevenQuestions embedded
               [Dispatch Next; Fire 0; Dispatch Previous; Dispatch Next]
               (initialWorld sevenQuestions))).
Proof.
  apply (@pending_callbacks_are_in_order catalogUtils browserBuiltins sevenQuestions
           embedded (mkQuestion "q0" "Warm-up" yesNo) (questions sixQuestions)).
  reflexivity.
Defined.

Lemma spinner_is_a_dead_end_witness :
  let w := @runGated catalogUtils browserBuiltins oneQuestion topLevel
             [Answer (mkAnswer "q7" "y"); Next] (initialWorld oneQuestion) in
  stage (state w) = StRedirecting
  ∧ @run catalogUtils browserBuiltins oneQuestion topLevel
      [Rerender; Fire 0; Rerender] w = w.
Proof.
  intros w. split; [reflexivity|].
  apply (@spinner_is_a_dead_end catalogUtils browserBuiltins oneQuestion topLevel);
    [reflexivity | reflexivity | by right | vm_compute; repeat split].
Defined.

Lemma session_without_first_question_is_stuck_witness :
  @run catalogUtils browserBuiltins (mkConfig [] None) embedded
    [Rerender; Fire 0] (initialWorld (mkConfig [] None))
  = initialWorld (mkConfig [] None).
Proof.
  apply (@session_without_first_question_is_stuck catalogUtils browserBuiltins
           (mkConfig [] None) embedded [Rerender; Fire 0]);
    [reflexivity | vm_compute; repeat split].
Defined.

(** ** The in-flight window *)

Section InFlight.
Context {U : QuizUtils} {B : JsBuiltins}.
Variable config : QuizConfig.
Variable env : Env.

(** X18. While a transition is in flight the screen still shows where
    the user was: no handler changes the stage, the history or the
    interstitial cell by itself, and the only handler that changes the
    current question by itself is [handleNext], which can only clear it.
    Every other change of these cells happens in a timer callback or in
    the completion effect. *)
Theorem handlers_change_the_screen_only_later (i : Intent) (w : World) :
  stage (state (handle config i w)) = stage (state w)
  ∧ questionHistory (state (handle config i w)) = questionHistory (state w)
  ∧ currentInterstitial (state (handle config i w)) = currentInterstitial (state w)
  ∧ (currentQuestionId (state (handle config i w)) = currentQuestionId (state w)
     ∨ (i = Next ∧ currentQuestionId (state (handle config i w)) = None)).
Proof.
  destruct i as [a| | |]; simpl.
  - split_and!; try done. by left.
  - unfold handleNext. repeat case_match; split_and!; try done;
      (by left) || (right; by split).
  - unfold handlePrevious, handleInterstitialBack.
    repeat case_match; split_and!; try done; by left.
  - unfold handleInterstitialContinue.
    repeat case_match; split_and!; try done; by left.
Qed.

(** X19. A second [handlePrevious] while the first is in flight does no
    harm: both callbacks carry the history and the question computed
    from the same committed state, so once both have run the state is
    the one a single [handlePrevious] leads to. *)
Theorem retreat_twice_in_flight_is_once (w : World) :
  timers w = [] →
  completionCondition (state w) = false →
  currentInterstitial (state w) = None →
  (1 < length (questionHistory (state w)))%nat →
  run config env [Dispatch Previous; Dispatch Previous; Fire 0; Fire 0] w
  = run config env [Dispatch Previous; Fire 0] w
  ∧ questionHistory (state (run config env [Dispatch Previous; Fire 0] w))
    = pop (questionHistory (state w))
  ∧ currentQuestionId (state (run config env [Dispatch Previous; Fire 0] w))
    = lastElement (pop (questionHistory (state w))).
Proof.
  intros Hts Hidle Hci Hlen.
  set (cb := PreviousCb (lastElement (pop (questionHistory (state w))))
               (pop (questionHistory (state w)))).
  destruct (last_removelast_is_Some _ Hlen) as [p Hp].
  set (w1 := setTimeout cb 50 (withState (setIsTransitioning true) w)).
  assert (step config env (Dispatch Previous) w = w1) as H1.
  { unfold step, handle. rewrite handlePrevious_pop by done.
    by apply completionEffect_idle. }
  assert (step config env (Dispatch Previous) w1
          = setTimeout cb 50 (withState (setIsTransitioning true) w1)) as H2.
  { unfold step, handle. rewrite (handlePrevious_pop w1) by done.
    by apply completionEffect_idle. }
  set (done1 := mkWorld (runCallback cb (setIsTransitioning true (state w)))
                  [] (externals w)).
  assert (currentQuestionId (state done1) = Some p) as Hcur by exact Hp.
  assert (step config env (Fire 0) w1 = done1) as H3.
  { unfold step. rewrite (fire_head w1 (mkTimer 50 cb) []) by (simpl; by rewrite Hts).
    by eapply completionEffect_current. }
  assert (run config env [Dispatch Previous; Fire 0] w = done1) as Hone.
  { unfold run. simpl. by rewrite H1, H3. }
  rewrite Hone. split; [|done].
  unfold run. simpl. rewrite H1, H2.
  unfold step at 2.
  rewrite (fire_head _ (mkTimer 50 cb) [mkTimer 50 cb]) by (simpl; by rewrite Hts).
  erewrite completionEffect_current by exact Hp.
  unfold step.
  erewrite fire_head by reflexivity.
  erewrite completionEffect_current by exact Hp.
  done.
Qed.

End InFlight.

Lemma retreat_twice_in_flight_is_once_witness :
  let w := @runGated catalogUtils browserBuiltins twoQuestions embedded
             [Next] (initialWorld twoQuestions) in
  questionHistory (state w) = ["q7"; "q8"]
  ∧ @run catalogUtils browserBuiltins twoQuestions embedded
      [Dispatch Previous; Dispatch Previous; Fire 0; Fire 0] w
    = @run catalogUtils browserBuiltins twoQuestions embedded
        [Dispatch Previous; Fire 0] w
  ∧ questionHistory
      (state (@run catalogUtils browserBuiltins twoQuestions embedded
                [Dispatch Previous; Fire 0] w)) = ["q7"].
Proof.
  intros w.
  destruct (@retreat_twice_in_flight_is_once catalogUtils browserBuiltins twoQuestions
              embedded w) as (Hsame & Hhist & _);
    [reflexivity | reflexivity | reflexivity | vm_compute; lia |].
  split_and!; [reflexivity | exact Hsame | exact Hhist].
Defined.

(** ** The display values in a session *)

Lemma Forall_removelast {A} (P : A → Prop) (l : list A) :
  Forall P l → Forall P (removelast l).
Proof.
  induction 1 as [|x l Hx Hl IH]; simpl; [done|].
  destruct l; [done|]. by constructor.
Qed.

Section SessionIds.
Context {U : QuizUtils} {B : JsBuiltins}.
Variable config : QuizConfig.
Variable env : Env.

Lemma idOk_truthy (q : string) : truthy (Some q) = true → idOk config q.
Proof. intros Hq. left. by apply truthy_Some. Qed.

Lemma idsShape_scheduled (w : World) (f : State → State) (cb : Callback) (ms : nat) :
  idsShape config w →
  currentQuestionId (f (state w)) = currentQuestionId (state w) →
  questionHistory (f (state w)) = questionHistory (state w) →
  pendingIdsOk config (mkTimer ms cb) →
  idsShape config (setTimeout cb ms (withState f w)).
Proof.
  intros (Hcur & Hhist & Hts) Hf Hh Hok. split_and!; simpl.
  - by rewrite Hf.
  - by rewrite Hh.
  - apply Forall_app. split; [done|]. by apply Forall_singleton.
Qed.

Lemma idsShape_handle (i : Intent) (w : World) :
  idsShape config w → idsShape config (handle config i w).
Proof.
  intros Hs. pose proof Hs as (Hcur & Hhist & Hts). destruct i as [a| | |]; simpl.
  - done.
  - unfold handleNext.
    destruct (currentQuestionId (state w)) as [q|] eqn:Hq; [|done].
    destruct (negb (truthy (Some q))); [done|].
    destruct (getNextQuestionId q _ _) as [n|]; [|by split_and!].
    destruct (truthy (Some n)) eqn:Hn; [|by split_and!].
    destruct (shouldShowInterstitial q n);
      apply idsShape_scheduled; try done. by apply idOk_truthy.
  - unfold handlePrevious.
    destruct (Z.of_nat (length (questionHistory (state w))) <=? 1); [done|].
    destruct (currentInterstitial (state w)) as [k|] eqn:Hci.
    + unfold handleInterstitialBack. rewrite Hci.
      destruct (isInterstitialTransitioning (state w)); [done|].
      by apply idsShape_scheduled.
    + apply idsShape_scheduled; try done. unfold pop, lastElement.
      assert (Forall (idOk config) (removelast (questionHistory (state w)))) as Hpop
        by by apply Forall_removelast.
      split; [|done]. intros q Hlast. apply last_Some_elem_of in Hlast.
      by eapply Forall_forall in Hpop.
  - unfold handleInterstitialContinue.
    destruct (currentInterstitial (state w)) as [k|]; [|done].
    destruct (isInterstitialTransitioning (state w)); [done|].
    by apply idsShape_scheduled.
Qed.

Lemma idsShape_fire (n : nat) (w : World) :
  idsShape config w → idsShape config (fire n w).
Proof.
  intros (Hcur & Hhist & Hts). unfold fire.
  destruct (timers w !! n) as [[d cb]|] eqn:Hn; [|done].
  pose proof (Forall_lookup_1 _ _ _ _ Hts Hn) as Hcb. unfold pendingIdsOk in Hcb.
  simpl in Hcb.
  split_and!; simpl; [| |by apply Forall_delete].
  - destruct cb as [k|x|[x|]|[x|]|previous newHistory]; simpl; try done.
    + by intros q [= <-].
    + destruct (truthy (Some x)) eqn:Hx; [|done]. simpl.
      intros q [= <-]. by apply idOk_truthy.
    + destruct (truthy (Some x)) eqn:Hx; [|done]. simpl.
      intros q [= <-]. by apply idOk_truthy.
    + by destruct Hcb.
  - destruct cb as [k|x|[x|]|[x|]|previous newHistory]; simpl; try done.
    + apply Forall_app. split; [done|]. by apply Forall_singleton.
    + destruct (truthy (Some x)) eqn:Hx; [|done]. simpl.
      apply Forall_app. split; [done|]. by apply Forall_singleton, idOk_truthy.
    + by destruct (truthy (Some x)).
    + by destruct Hcb.
Qed.

Lemma idsShape_completionEffect (w : World) :
  idsShape config w → idsShape config (completionEffect config env w).
Proof.
  intros (Hcur & Hhist & Hts). unfold idsShape.
  rewrite timers_completionEffect.
  by destruct (state_completionEffect_cases config env w) as [->|[_ ->]].
Qed.

Lemma idsShape_run (es : list Event) (w : World) :
  idsShape config w → idsShape config (run config env es w).
Proof.
  revert w. induction es as [|e es IH]; intros w Hs; [done|].
  unfold run in *. simpl. apply IH. unfold step.
  apply idsShape_completionEffect.
  destruct e; [by apply idsShape_handle | by apply idsShape_fire | done].
Qed.

Lemma idsShape_initial : idsShape config (initialWorld config).
Proof.
  unfold idsShape, initialWorld, initialState, idOk. simpl.
  destruct (questions config) as [|q0 rest]; split_and!; try done.
  - intros q [= <-]. right. apply list_elem_of_here.
  - apply Forall_singleton. right. apply list_elem_of_here.
Qed.

(** The empty string is the current question of a session only when it
    is an id of the catalog. *)
Lemma current_empty_id_is_in_catalog (es : list Event) :
  currentQuestionId (state (run config env es (initialWorld config))) = Some "" →
  "" ∈ id <$> questions config.
Proof.
  intros Hcur.
  destruct (idsShape_run es _ idsShape_initial) as (Hshape & _).
  by destruct (Hshape "" Hcur).
Qed.

(** C10. In every state a session reaches, over any sequence of events:
    when [currentQuestionId] is [null] the question number is 1 and the
    progress 0; when [currentQuestionId] is set to an id that does not
    occur in the catalog the question number is 0 and the progress 0.
    (Both functions test [currentQuestionId] for truthiness, and a
    session holds the empty string as its current question only when
    the catalog has it as an id.) *)
Theorem display_values_in_a_session (es : list Event) :
  let s := state (run config env es (initialWorld config)) in
  (currentQuestionId s = None →
     getCurrentQuestionNumber config s = 1 ∧ calculateProgress config s = 0)
  ∧ (∀ q, currentQuestionId s = Some q →
       (∀ x, x ∈ questions config → id x ≠ q) →
       getCurrentQuestionNumber config s = 0 ∧ calculateProgress config s = 0).
Proof.
  intros s.
  destruct (display_values_off_catalog config s) as (Hnull & _ & Hoff).
  split; [done|]. intros q Hq Habsent. apply (Hoff q); [done | | done].
  intros ->. apply current_empty_id_is_in_catalog in Hq.
  apply list_elem_of_fmap in Hq as (x & Hid & Hx). by apply (Habsent x).
Qed.

End SessionIds.

Lemma display_values_in_a_session_witness :
  let ended := state (@run catalogUtils browserBuiltins oneQuestion embedded
                        [Dispatch Next] (initialWorld oneQuestion)) in
  let stray := state (@run strayUtils browserBuiltins oneQuestion embedded
                        [Dispatch Next; Fire 0] (initialWorld oneQuestion)) in
  (currentQuestionId ended = None
   ∧ getCurrentQuestionNumber oneQuestion ended = 1
   ∧ @calculateProgress browserBuiltins oneQuestion ended = 0)
  ∧ (currentQuestionId stray = Some "q9"
     ∧ getCurrentQuestionNumber oneQuestion stray = 0
     ∧ @calculateProgress browserBuiltins oneQuestion stray = 0).
Proof.
  intros ended stray. split.
  - destruct (@display_values_in_a_session catalogUtils browserBuiltins oneQuestion
                embedded [Dispatch Next]) as [Hnull _].
    destruct (Hnull eq_refl) as [Hnumber Hprogress].
    split_and!; [reflexivity | exact Hnumber | exact Hprogress].
  - destruct (@display_values_in_a_session strayUtils browserBuiltins oneQuestion
                embedded [Dispatch Next; Fire 0]) as [_ Hoff].
    destruct (Hoff "q9" eq_refl) as [Hnumber Hprogress].
    { apply off_catalog. by_evaluation. }
    split_and!; [reflexivity | exact Hnumber | exact Hprogress].
Defined.
